(** * go-parts: run-parts style directory merging

    A shallow embedding of the Go package [parts] (files [mode.go] and
    [parts.go]) together with the few standard-library operations it
    calls ([strings.Compare], [filepath.Base], [filepath.Join],
    [sort.Sort], [io.MultiReader], [os.File]).

    Conventions
    - a Go [uint32] file mode is a [Z] in [0, 2^32), bit operations are
      [Z.land] and [Z.lor];
    - a Go [(value, error)] result is a pair whose second component is
      an [option error] ([None] is Go's [nil]);
    - a call that may panic returns a [go] outcome;
    - the map [foundNames] is a [gmap string string];
    - the file system is an oracle record, open files live in a table
      that [Parts.readState] refers to by index. *)

From Stdlib Require Import ZArith Ascii.
From Stdlib Require String OrderedTypeEx.
From stdpp Require Import base numbers option list gmap strings sorting.

Local Open Scope Z_scope.

(** ** Go values shared by all packages *)

(** Go's [error] values as they occur in this package. [EOF] is the
    sentinel [io.EOF]; [PathError] is what [os] calls return;
    [errorString] is what [fmt.Errorf] builds. *)
Inductive error : Type :=
  | EOF
  | PathError (op path msg : string)
  | ErrClosed
  | errorString (msg : string).

Definition Error (e : error) : string :=
  match e with
  | EOF => "EOF"
  | PathError op path msg => op +:+ " " +:+ path +:+ ": " +:+ msg
  | ErrClosed => "file already closed"
  | errorString msg => msg
  end.

Global Instance error_eq_dec : EqDecision error.
Proof. solve_decision. Defined.

(** Outcome of a call that either returns or panics. *)
Inductive go (A : Type) : Type :=
  | Ret (a : A)
  | Panic (msg : string).
Arguments Ret {A} a.
Arguments Panic {A} msg.

(** [s[lo:hi]] on a slice whose capacity equals its length. *)
Definition slice {A} (s : list A) (lo hi : Z) : go (list A) :=
  if (lo <? 0) || (hi <? lo) || (Z.of_nat (length s) <? hi)
  then Panic "slice bounds out of range"
  else Ret (take (Z.to_nat (hi - lo)) (drop (Z.to_nat lo) s)).

(** ** Package [strings] *)
Module strings.

(** [strings.Compare]: byte-wise lexicographic comparison. *)
Definition Compare (a b : string) : Z :=
  match String.compare a b with
  | Lt => -1
  | Eq => 0
  | Gt => 1
  end.

End strings.

(** ** Package [path/filepath] (Unix: separator [/], no volume names) *)
Module filepath.

Definition Separator : ascii := "/"%char.

Definition IsPathSeparator (c : ascii) : bool := Ascii.eqb c Separator.

(** Characters up to the first separator. *)
Fixpoint element (l : list ascii) : list ascii :=
  match l with
  | [] => []
  | c :: l' => if IsPathSeparator c then [] else c :: element l'
  end.

Fixpoint stripSeparators (l : list ascii) : list ascii :=
  match l with
  | [] => []
  | c :: l' => if IsPathSeparator c then stripSeparators l' else l
  end.

(** [filepath.Base]: the last element of [path]; trailing separators
    are removed first; an empty path gives ["."], a path of
    separators only gives ["/"]. The scan runs on the reversed
    string, as the source scans from the end. *)
Definition Base (path : string) : string :=
  if String.eqb path "" then "."
  else
    let stripped := stripSeparators (rev (String.list_ascii_of_string path)) in
    match element stripped with
    | [] => "/"
    | e => String.string_of_list_ascii (rev e)
    end.

(** The elements of a path: the pieces between separators. *)
Fixpoint split (l : list ascii) : list (list ascii) :=
  match l with
  | [] => [[]]
  | c :: l' =>
      if IsPathSeparator c then [] :: split l'
      else match split l' with
           | [] => [[c]]
           | e :: es => (c :: e) :: es
           end
  end.

Definition dot : list ascii := ["."%char].
Definition dotdot : list ascii := ["."%char; "."%char].

(** One round of the loop of [filepath.Clean], seen element by
    element. The output buffer is kept as the stack of elements
    written so far (last written first); [locked] counts the leading
    [..] elements, which the source protects with its [dotdot]
    index. *)
Definition cleanStep (rooted : bool) (st : nat * list (list ascii))
    (e : list ascii) : nat * list (list ascii) :=
  let '(locked, stack) := st in
  if decide (e = []) then st
  else if decide (e = dot) then st
  else if decide (e = dotdot) then
    if decide (locked < length stack)%nat then (locked, tail stack)
    else if rooted then st
    else (S locked, e :: stack)
  else (locked, e :: stack).

Fixpoint joinElements (es : list (list ascii)) : list ascii :=
  match es with
  | [] => []
  | [e] => e
  | e :: es' => e ++ Separator :: joinElements es'
  end.

(** [filepath.Clean]. *)
Definition Clean (path : string) : string :=
  match String.list_ascii_of_string path with
  | [] => "."
  | (c :: _) as l =>
      let rooted := IsPathSeparator c in
      let '(_, stack) := fold_left (cleanStep rooted) (split l) (0%nat, []) in
      let body := joinElements (rev stack) in
      let out := if rooted then Separator :: body else body in
      match out with
      | [] => "."
      | _ => String.string_of_list_ascii out
      end
  end.

(** [filepath.Join] of two elements: empty elements are ignored, the
    rest is joined with the separator and cleaned. *)
Definition Join (dir name : string) : string :=
  if String.eqb dir "" then
    if String.eqb name "" then "" else Clean name
  else Clean (dir +:+ "/" +:+ name).

End filepath.

(** ** Package [sort] *)
Module sort.
Section Sort.
Context {A : Type} (Less : A -> A -> bool).

(** Place [x] in front of the first element it is less than. *)
Fixpoint insert (x : A) (l : list A) : list A :=
  match l with
  | [] => [x]
  | y :: l' => if Less x y then x :: l else y :: insert x l'
  end.

(** [sort.Sort]: the library promises a permutation ordered by
    [Less] and no stability; the model sorts by insertion. The
    theorems on the result use only that promise (see
    [sortNames_any_order]). *)
Definition Sort (l : list A) : list A := foldr insert [] l.

(** [sort.Reverse]: the same data with [Less] flipped. *)
Definition Reverse : A -> A -> bool := fun a b => Less b a.
End Sort.
End sort.


(** ** Package [regexp] *)
Module regexp.

(** A compiled pattern is known by the names it matches. *)
Record Regexp : Type := { MatchString : string -> bool }.

End regexp.

(** ** Package [os] *)
Module os.

(** [os.FileMode]: a [uint32]; the type bits sit at the top, the nine
    permission bits at the bottom. The constants carry the values of
    the Go library. *)
Definition FileMode : Type := Z.

Definition ModeDir : FileMode := Z.shiftl 1 31.
Definition ModeAppend : FileMode := Z.shiftl 1 30.
Definition ModeExclusive : FileMode := Z.shiftl 1 29.
Definition ModeTemporary : FileMode := Z.shiftl 1 28.
Definition ModeSymlink : FileMode := Z.shiftl 1 27.
Definition ModeDevice : FileMode := Z.shiftl 1 26.
Definition ModeNamedPipe : FileMode := Z.shiftl 1 25.
Definition ModeSocket : FileMode := Z.shiftl 1 24.
Definition ModeSetuid : FileMode := Z.shiftl 1 23.
Definition ModeSetgid : FileMode := Z.shiftl 1 22.
Definition ModeCharDevice : FileMode := Z.shiftl 1 21.
Definition ModeSticky : FileMode := Z.shiftl 1 20.
Definition ModeIrregular : FileMode := Z.shiftl 1 19.

Definition ModeType : FileMode :=
  Z.lor ModeDir (Z.lor ModeSymlink (Z.lor ModeNamedPipe (Z.lor ModeSocket
    (Z.lor ModeDevice (Z.lor ModeCharDevice ModeIrregular))))).

Definition ModePerm : FileMode := 511.

(** [os.FileMode.IsRegular]: no type bit is set. *)
Definition IsRegular (m : FileMode) : bool := Z.land m ModeType =? 0.

(** [os.FileInfo], reduced to what the package reads from it. *)
Record FileInfo : Type := { Name : string; Mode : FileMode }.

(** The file system the package runs against. [Stat] follows symbolic
    links, [Lstat] does not. [OpenErr] is the error of [os.Open] ([None]
    when the open succeeds), [DirNames] the result of
    [Readdirnames(0)] on an opened directory, [Contents] the bytes of
    a file, [ReadErr] an I/O failure met once the bytes of the file
    are consumed ([None]: a clean end of file), [CloseErr] the error
    of closing a handle on the file. *)
Record FileSystem : Type := {
  Stat : string -> error + FileInfo;
  Lstat : string -> error + FileInfo;
  OpenErr : string -> option error;
  DirNames : string -> error + list string;
  Contents : string -> list Byte.byte;
  ReadErr : string -> option error;
  CloseErr : string -> option error
}.

(** An open [os.File]: the bytes not yet read and the closed flag. *)
Record File : Type := {
  path : string;
  unread : list Byte.byte;
  closed : bool
}.

(** [os.Open]: the new handle is the next free index of the table. *)
Definition Open (fs : FileSystem) (name : string) (table : list File)
    : (nat * option error) * list File :=
  match OpenErr fs name with
  | Some err => ((0%nat, Some err), table)
  | None =>
      ((length table, None),
       table ++ [{| path := name; unread := Contents fs name; closed := false |}])
  end.

(** [File.Read] into a buffer of [k] bytes: the bytes written to
    the buffer and the error. A read into an empty buffer returns
    [0, nil]; at the end of the file the error is [io.EOF]. *)
Definition Read (fs : FileSystem) (fd : nat) (k : nat) (table : list File)
    : (list Byte.byte * option error) * list File :=
  match table !! fd with
  | None => (([], Some ErrClosed), table)
  | Some f =>
      if closed f then (([], Some ErrClosed), table)
      else if decide (k = 0%nat) then (([], None), table)
      else
        match unread f with
        | [] =>
            (([], Some (default EOF (ReadErr fs (path f)))), table)
        | bs =>
            ((take k bs, None),
             <[fd := {| path := path f; unread := drop k bs; closed := false |}]> table)
        end
  end.

(** [File.Close]. *)
Definition Close (fs : FileSystem) (fd : nat) (table : list File)
    : option error * list File :=
  match table !! fd with
  | None => (Some ErrClosed, table)
  | Some f =>
      if closed f then (Some ErrClosed, table)
      else
        (CloseErr fs (path f),
         <[fd := {| path := path f; unread := unread f; closed := true |}]> table)
  end.

End os.

(** ** Package [io] *)
Module io.

(** The reader built by [io.MultiReader] over file handles; a [None]
    entry is a nil reader. *)
Record multiReader : Type := { readers : list (option nat) }.

Definition MultiReader (rs : list (option nat)) : multiReader :=
  {| readers := rs |}.

(** The loop of [multiReader.Read]: read from the first reader; on
    [EOF] drop it; return unless nothing was read and the error is
    [EOF]; [EOF] is hidden while readers remain. *)
Fixpoint readLoop (fs : os.FileSystem) (rs : list (option nat)) (k : nat)
    (table : list os.File)
    : go (list Byte.byte * option error) * list (option nat) * list os.File :=
  match rs with
  | [] => (Ret ([], Some EOF), [], table)
  | None :: _ => (Panic "nil pointer dereference", rs, table)
  | Some fd :: rest =>
      let '((bs, err), table') := os.Read fs fd k table in
      if decide (err = Some EOF) then
        if decide (0 < length bs)%nat then
          (Ret (bs, if decide (0 < length rest)%nat then None else Some EOF),
           rest, table')
        else readLoop fs rest k table'
      else (Ret (bs, err), rs, table')
  end.

Definition Read (fs : os.FileSystem) (mr : multiReader) (k : nat)
    (table : list os.File)
    : go (list Byte.byte * option error) * multiReader * list os.File :=
  let '(res, rs, table') := readLoop fs (readers mr) k table in
  (res, {| readers := rs |}, table').

End io.

(** ** Package [parts] *)
Module parts.

(** *** mode.go *)

(** [FileMode] extends [os.FileMode] with an explicit bit for regular
    files. *)
Definition FileMode : Type := Z.

Definition ModeDir : FileMode := os.ModeDir.
Definition ModeAppend : FileMode := os.ModeAppend.
Definition ModeExclusive : FileMode := os.ModeExclusive.
Definition ModeTemporary : FileMode := os.ModeTemporary.
Definition ModeSymlink : FileMode := os.ModeSymlink.
Definition ModeDevice : FileMode := os.ModeDevice.
Definition ModeNamedPipe : FileMode := os.ModeNamedPipe.
Definition ModeSocket : FileMode := os.ModeSocket.
Definition ModeSetuid : FileMode := os.ModeSetuid.
Definition ModeSetgid : FileMode := os.ModeSetgid.
Definition ModeCharDevice : FileMode := os.ModeCharDevice.
Definition ModeSticky : FileMode := os.ModeSticky.
(** Thirteenth constant of the block: [1 << (31 - iota)], [iota = 12]. *)
Definition ModeRegular : FileMode := Z.shiftl 1 (31 - 12).

Definition ModeType : FileMode :=
  Z.lor ModeDir (Z.lor ModeSymlink (Z.lor ModeNamedPipe (Z.lor ModeSocket
    (Z.lor ModeDevice ModeRegular)))).

(** [0777] *)
Definition ModePerm : FileMode := 511.

Definition IsDir (m : FileMode) : bool := negb (Z.land m ModeDir =? 0).

Definition IsRegular (m : FileMode) : bool :=
  if negb (Z.land m ModeRegular =? 0) then true
  else if Z.land m ModeType =? 0 then true
  else false.

Definition Perm (m : FileMode) : FileMode := Z.land m ModePerm.

(** [0111] is [73]. *)
Definition IsExecutable (m : FileMode) : bool :=
  IsRegular m && negb (Z.land m 73 =? 0).

(** The first loop of [String]: one letter per type bit that is set,
    the letter at index [i] of the string standing for bit [31 - i]. *)
Fixpoint typeLetters (m : FileMode) (i : Z) (str : list ascii) : list ascii :=
  match str with
  | [] => []
  | c :: str' =>
      if negb (Z.land m (Z.shiftl 1 (32 - 1 - i)) =? 0)
      then c :: typeLetters m (i + 1) str'
      else typeLetters m (i + 1) str'
  end.

(** The second loop of [String]: the letter at index [i] for
    permission bit [8 - i] when it is set, a dash when it is not. *)
Fixpoint permLetters (m : FileMode) (i : Z) (rwx : list ascii) : list ascii :=
  match rwx with
  | [] => []
  | c :: rwx' =>
      (if negb (Z.land m (Z.shiftl 1 (9 - 1 - i)) =? 0) then c else "-"%char)
      :: permLetters m (i + 1) rwx'
  end.

(** [FileMode.String]: the type letters, or one dash when there is
    none, then the nine permission letters. *)
Definition String (m : FileMode) : string :=
  let buf := typeLetters m 0 (String.list_ascii_of_string "dalTLDpSugctf") in
  let buf := match buf with
             | [] => ["-"%char]
             | _ => buf
             end in
  String.string_of_list_ascii
    (buf ++ permLetters m 0 (String.list_ascii_of_string "rwxrwxrwx")).

(** [FileInfo] embeds [os.FileInfo]. *)
Record FileInfo : Type := { embedded : os.FileInfo }.

(** [FileInfo.Mode]. *)
Definition Mode (i : FileInfo) : FileMode :=
  let m := os.Mode (embedded i) in
  if Z.land m os.ModeType =? 0 then ModeRegular
  else m.

(** *** parts.go *)

Definition DefaultModeTypeFilter : FileMode := ModeRegular.
Definition DefaultModePermFilter : FileMode := ModePerm.
Definition ExecutableModePermFilter : FileMode := 73.
Definition ExecutableModeTypeFilter : FileMode := ModeRegular.
(** The compiled form of the pattern [.*]: every name matches. *)
Definition DefaultRegExpFilter : regexp.Regexp :=
  {| regexp.MatchString := fun _ => true |}.

Record Config : Type := {
  Reverse : bool;
  ModeTypeFilter : FileMode;
  ModePermFilter : FileMode;
  RegExpFilter : option regexp.Regexp
}.

(** [NewConfig]; [compile] stands for [regexp.Compile]. The result
    is the pair of the Go function, [None] for a nil pointer. *)
Definition NewConfig (compile : string -> error + regexp.Regexp)
    (reverse : bool) (modeTypeFilter modePermFilter : FileMode)
    (regExpFilter : string) : option Config * option error :=
  match compile regExpFilter with
  | inl err => (None, Some (errorString ("parts: " +:+ Error err)))
  | inr regExp =>
      (Some {| Reverse := reverse;
               ModeTypeFilter := modeTypeFilter;
               ModePermFilter := modePermFilter;
               RegExpFilter := Some regExp |}, None)
  end.

Definition NewDefaultConfig : Config :=
  {| Reverse := false;
     ModeTypeFilter := DefaultModeTypeFilter;
     ModePermFilter := DefaultModePermFilter;
     RegExpFilter := Some DefaultRegExpFilter |}.

(** [Files] holds handles into the table of open files, [Reader] the
    reader composed over them ([None]: not yet assigned). *)
Record readState : Type := {
  Files : list (option nat);
  Reader : option io.multiReader
}.

(** The fields [Config] and [readState] carry a trailing underscore,
    their names being taken by the types. *)
Record Parts : Type := {
  Paths : list string;
  Config_ : Config;
  readState_ : option readState
}.

Definition NewParts (paths : list string) (config : option Config) : Parts :=
  {| Paths := paths;
     Config_ := default NewDefaultConfig config;
     readState_ := None |}.

Definition setReadState (p : Parts) (rs : option readState) : Parts :=
  {| Paths := Paths p; Config_ := Config_ p; readState_ := rs |}.

(** [filter]: name pattern (when one is given), then permission mask,
    then type mask. *)
Definition filter (p : Parts) (name : string) (mode : FileMode)
    (regExp : option regexp.Regexp) : bool :=
  if match regExp with
     | Some re => negb (regexp.MatchString re name)
     | None => false
     end then false
  else if Z.land mode (ModePermFilter (Config_ p)) =? 0 then false
  else if Z.land mode (ModeTypeFilter (Config_ p)) =? 0 then false
  else true.

Definition StatMode (fs : os.FileSystem) (name : string)
    : FileMode * option error :=
  match os.Stat fs name with
  | inl err => (0, Some err)
  | inr fileInfo =>
      let mode :=
        if os.IsRegular (os.Mode fileInfo)
        then Z.lor (os.Mode fileInfo) ModeRegular
        else os.Mode fileInfo in
      (mode, None)
  end.

Definition LstatMode (fs : os.FileSystem) (name : string)
    : FileMode * option error :=
  match os.Lstat fs name with
  | inl err => (0, Some err)
  | inr fileInfo =>
      let mode :=
        if os.IsRegular (os.Mode fileInfo)
        then Z.lor (os.Mode fileInfo) ModeRegular
        else os.Mode fileInfo in
      (mode, None)
  end.

(** [pathsByBasename.Less] on the two elements compared. *)
Definition Less (a b : string) : bool :=
  strings.Compare (filepath.Base a) (filepath.Base b) <? 0.

(** [pathsByBasename.Len]. *)
Definition Len (paths : list string) : Z := Z.of_nat (length paths).

(** [pathsByBasename.Swap]: both elements are read, then both are
    written; an index outside the slice panics. *)
Definition Swap (paths : list string) (i j : Z) : go (list string) :=
  if (i <? 0) || (Len paths <=? i) || (j <? 0) || (Len paths <=? j)
  then Panic "index out of range"
  else
    match paths !! Z.to_nat i, paths !! Z.to_nat j with
    | Some pi, Some pj =>
        Ret (<[Z.to_nat j := pi]> (<[Z.to_nat i := pj]> paths))
    | _, _ => Panic "index out of range"
    end.

(** [fmt.Errorf("parts: %s", err)] *)
Definition Errorf (err : error) : error :=
  errorString ("parts: " +:+ Error err).

(** The inner loop of [Readdirnames] over the names of one directory.
    [inl] is an early return with the error. *)
Fixpoint scanDir (fs : os.FileSystem) (p : Parts) (path : string)
    (fileNames : list string) (foundNames : gmap string string)
    : error + gmap string string :=
  match fileNames with
  | [] => inr foundNames
  | fileName :: rest =>
      let fullPath := filepath.Join path fileName in
      match StatMode fs fullPath with
      | (_, Some err) => inl (Errorf err)
      | (mode, None) =>
          match foundNames !! fileName with
          | Some _ => scanDir fs p path rest foundNames
          | None =>
              if filter p fileName mode (RegExpFilter (Config_ p))
              then scanDir fs p path rest (<[fileName := fullPath]> foundNames)
              else scanDir fs p path rest foundNames
          end
      end
  end.

(** The outer loop of [Readdirnames] over [p.Paths]. The deferred
    close of each directory has no effect on the result and is left
    out. *)
Fixpoint scanPaths (fs : os.FileSystem) (p : Parts) (paths : list string)
    (foundNames : gmap string string) : error + gmap string string :=
  match paths with
  | [] => inr foundNames
  | path :: rest =>
      match StatMode fs path with
      | (_, Some err) => inl (Errorf err)
      | (mode, None) =>
          if IsDir mode then
            match os.OpenErr fs path with
            | Some err => inl (Errorf err)
            | None =>
                match os.DirNames fs path with
                | inl err => inl (Errorf err)
                | inr fileNames =>
                    match scanDir fs p path fileNames foundNames with
                    | inl err => inl err
                    | inr foundNames' => scanPaths fs p rest foundNames'
                    end
                end
            end
          else
            match foundNames !! filepath.Base path with
            | Some _ => scanPaths fs p rest foundNames
            | None =>
                if filter p (filepath.Base path) mode None
                then scanPaths fs p rest (<[filepath.Base path := path]> foundNames)
                else scanPaths fs p rest foundNames
            end
      end
  end.

(** The values of the map in the order the [range] loop meets them.
    Go leaves that order open; the model takes the order of
    [map_to_list]. *)
Definition rangeValues (foundNames : gmap string string) : list string :=
  (map_to_list foundNames).*2.

Definition sortNames (reverse : bool) (names : list string) : list string :=
  if reverse then sort.Sort (sort.Reverse Less) names
  else sort.Sort Less names.

Definition Readdirnames (fs : os.FileSystem) (p : Parts) (n : Z)
    : go (list string * option error) :=
  match scanPaths fs p (Paths p) ∅ with
  | inl err => Ret ([], Some err)
  | inr foundNames =>
      let names := sortNames (Reverse (Config_ p)) (rangeValues foundNames) in
      if n =? 0 then Ret (names, None)
      else if n <? Z.of_nat (length names) then
        match slice names 0 n with
        | Ret s => Ret (s, None)
        | Panic msg => Panic msg
        end
      else Ret (names, None)
  end.

(** The loop of [Read] that opens every resolved file. *)
Fixpoint openFiles (fs : os.FileSystem) (foundFiles : list string)
    (files : list (option nat)) (table : list os.File)
    : option error * list (option nat) * list os.File :=
  match foundFiles with
  | [] => (None, files, table)
  | fileName :: rest =>
      let '((file, err), table') := os.Open fs fileName table in
      match err with
      | Some e => (Some e, files, table')
      | None => openFiles fs rest (files ++ [Some file]) table'
      end
  end.

(** The last statement of [Read]: [p.readState.Reader.Read(b)]. *)
Definition readReader (fs : os.FileSystem) (k : nat) (p : Parts)
    (rs : readState) (table : list os.File)
    : go (list Byte.byte * option error) * Parts * list os.File :=
  match Reader rs with
  | None => (Panic "nil pointer dereference", p, table)
  | Some mr =>
      let '(res, mr', table') := io.Read fs mr k table in
      (res, setReadState p (Some {| Files := Files rs; Reader := Some mr' |}),
       table')
  end.

(** [Read] into a buffer of [k] bytes: the bytes written and the
    error, the session and the table of open files afterwards. *)
Definition Read (fs : os.FileSystem) (k : nat) (p : Parts)
    (table : list os.File)
    : go (list Byte.byte * option error) * Parts * list os.File :=
  match readState_ p with
  | None =>
      match Readdirnames fs p 0 with
      | Panic msg => (Panic msg, p, table)
      | Ret (_, Some err) => (Ret ([], Some err), p, table)
      | Ret (foundFiles, None) =>
          let '(err, files, table') := openFiles fs foundFiles [] table in
          match err with
          | Some e =>
              (Ret ([], Some e),
               setReadState p (Some {| Files := files; Reader := None |}),
               table')
          | None =>
              let rs := {| Files := files;
                           Reader := Some (io.MultiReader files) |} in
              readReader fs k (setReadState p (Some rs)) rs table'
          end
      end
  | Some rs => readReader fs k p rs table
  end.

(** The loop of [Close]. *)
Fixpoint closeFiles (fs : os.FileSystem) (files : list (option nat))
    (err : option error) (table : list os.File)
    : option error * list os.File :=
  match files with
  | [] => (err, table)
  | None :: rest => closeFiles fs rest err table
  | Some reader :: rest =>
      let '(tmpErr, table') := os.Close fs reader table in
      let err' :=
        if bool_decide (tmpErr <> None) && bool_decide (err <> None)
        then tmpErr else err in
      closeFiles fs rest err' table'
  end.

Definition Close (fs : os.FileSystem) (p : Parts) (table : list os.File)
    : option error * Parts * list os.File :=
  match readState_ p with
  | None => (None, p, table)
  | Some rs =>
      let '(err, table') := closeFiles fs (Files rs) None table in
      (err, setReadState p None, table')
  end.

End parts.

(** ** The test tree of the repository

    [testdata/] as the tests and examples describe it: every file holds
    its own base name followed by a newline. *)
Module testdata.

Definition regular : os.FileMode := 420.          (* 0644 *)
Definition executable : os.FileMode := 493.       (* 0755 *)
Definition directory : os.FileMode := Z.lor os.ModeDir 493.
Definition symlink : os.FileMode := Z.lor os.ModeSymlink 511.

(** Path, mode reported by [Stat], mode reported by [Lstat]. *)
Definition tree : list (string * (os.FileMode * os.FileMode)) :=
  [ ("testdata/test.conf", (regular, regular));
    ("testdata/etc", (directory, directory));
    ("testdata/etc/10-both.conf", (regular, regular));
    ("testdata/etc/10-only-etc.conf", (regular, regular));
    ("testdata/etc/20-only-etc.conf", (regular, regular));
    ("testdata/etc/30-symlink.conf", (regular, symlink));
    ("testdata/usr/lib", (directory, directory));
    ("testdata/usr/lib/10-both.conf", (regular, regular));
    ("testdata/usr/lib/10-executable.sh", (executable, executable));
    ("testdata/usr/lib/10-only-lib.conf", (regular, regular));
    ("testdata/usr/lib/20-only-lib.conf", (regular, regular));
    ("testdata/usr/lib/30-symlink.conf", (regular, regular));
    ("testdata/usr/lib/40-noconf", (regular, regular));
    ("testdata/usr/lib/adir", (directory, directory));
    ("testdata/usr/lib/nodigits.conf", (regular, regular)) ].

Definition listing : list (string * list string) :=
  [ ("testdata/etc",
     ["10-both.conf"; "10-only-etc.conf"; "20-only-etc.conf"; "30-symlink.conf"]);
    ("testdata/usr/lib",
     ["10-both.conf"; "10-executable.sh"; "10-only-lib.conf";
      "20-only-lib.conf"; "30-symlink.conf"; "40-noconf"; "adir";
      "nodigits.conf"]);
    ("testdata/usr/lib/adir", []) ].

Fixpoint assoc {A} (k : string) (l : list (string * A)) : option A :=
  match l with
  | [] => None
  | (k', v) :: l' => if String.eqb k k' then Some v else assoc k l'
  end.

Definition noEnt (op name : string) : error :=
  PathError op name "no such file or directory".

Definition fs : os.FileSystem :=
  {| os.Stat := fun name =>
       match assoc name tree with
       | Some (m, _) => inr {| os.Name := filepath.Base name; os.Mode := m |}
       | None => inl (noEnt "stat" name)
       end;
     os.Lstat := fun name =>
       match assoc name tree with
       | Some (_, m) => inr {| os.Name := filepath.Base name; os.Mode := m |}
       | None => inl (noEnt "lstat" name)
       end;
     os.OpenErr := fun name =>
       match assoc name tree with
       | Some _ => None
       | None => Some (noEnt "open" name)
       end;
     os.DirNames := fun name =>
       match assoc name listing with
       | Some names => inr names
       | None => inl (PathError "readdirent" name "not a directory")
       end;
     os.Contents := fun name =>
       String.list_byte_of_string (filepath.Base name +:+ String.String "010" "");
     os.ReadErr := fun _ => None;
     os.CloseErr := fun _ => None |}.

Definition testDataPaths : list string :=
  ["testdata/test.conf"; "testdata/etc"; "testdata/usr/lib"].

(** The pattern [\.conf$]. *)
Definition confSuffix : regexp.Regexp :=
  {| regexp.MatchString := fun name =>
       let l := String.length name in
       String.eqb (String.substring (l - 5) 5 name) ".conf" |}.

End testdata.

(** ** Vocabulary of the statements *)

(** A name a directory listing can hold: not empty, not [.] or [..],
    free of separators. *)
Definition validName (f : string) : bool :=
  let l := String.list_ascii_of_string f in
  bool_decide (l <> []) && bool_decide (l <> filepath.dot)
  && bool_decide (l <> filepath.dotdot)
  && forallb (fun c => negb (filepath.IsPathSeparator c)) l.

(** The shape of a cleaned path before its last element: empty, or
    closed by a separator. *)
Definition closedPrefix (x : list ascii) : Prop :=
  x = [] \/ exists x', x = x' ++ [filepath.Separator].

(** Every directory listing of the file system holds valid names. *)
Definition wellFormed (fs : os.FileSystem) : Prop :=
  forall dir names, os.DirNames fs dir = inr names ->
    Forall (fun f => validName f = true) names.

(** [a] comes strictly before [b] by base name, under the ordinary
    comparison of strings. *)
Definition baseLt (a b : string) : Prop :=
  String.compare (filepath.Base a) (filepath.Base b) = Lt.

(** Strictly ascending, strictly descending by base name. *)
Definition ascending (names : list string) : Prop :=
  StronglySorted baseLt names.
Definition descending (names : list string) : Prop :=
  StronglySorted (flip baseLt) names.

(** What the scan examines. A candidate is the base name an entry
    would be recorded under, its full path, and the verdict of the
    filter that applies to it: with the configured pattern for an
    entry listed by a directory, without pattern for a path given
    directly. *)
Record candidate : Type := {
  cName : string;
  cPath : string;
  cPass : bool
}.

Definition dirCandidate (fs : os.FileSystem) (p : parts.Parts)
    (path fileName : string) : candidate :=
  let fullPath := filepath.Join path fileName in
  {| cName := fileName;
     cPath := fullPath;
     cPass := parts.filter p fileName (parts.StatMode fs fullPath).1
                (parts.RegExpFilter (parts.Config_ p)) |}.

Definition candidates (fs : os.FileSystem) (p : parts.Parts)
    (path : string) : list candidate :=
  let mode := (parts.StatMode fs path).1 in
  if parts.IsDir mode then
    match os.DirNames fs path with
    | inr fileNames => dirCandidate fs p path <$> fileNames
    | inl _ => []
    end
  else
    [{| cName := filepath.Base path;
        cPath := path;
        cPass := parts.filter p (filepath.Base path) mode None |}].

(** The body shared by both branches of the scan: an entry is recorded
    when its base name is free and the filter lets it through. *)
Definition record (foundNames : gmap string string) (c : candidate)
    : gmap string string :=
  match foundNames !! cName c with
  | Some _ => foundNames
  | None => if cPass c then <[cName c := cPath c]> foundNames else foundNames
  end.

(** The full path of the first candidate named [k] that passes. *)
Fixpoint firstPass (k : string) (cs : list candidate) : option string :=
  match cs with
  | [] => None
  | c :: cs' =>
      if bool_decide (cName c = k) && cPass c then Some (cPath c)
      else firstPass k cs'
  end.

(** The same session with the [Reverse] flag of its configuration set
    to [b]. *)
Definition withReverse (p : parts.Parts) (b : bool) : parts.Parts :=
  {| parts.Paths := parts.Paths p;
     parts.Config_ :=
       {| parts.Reverse := b;
          parts.ModeTypeFilter := parts.ModeTypeFilter (parts.Config_ p);
          parts.ModePermFilter := parts.ModePermFilter (parts.Config_ p);
          parts.RegExpFilter := parts.RegExpFilter (parts.Config_ p) |};
     parts.readState_ := parts.readState_ p |}.

(** The entry with base name [f] and full path [full] is discovered
    under the input path [A] and passes the filter that applies to it:
    listed by the directory [A], or [A] itself when [A] is not a
    directory. *)
Definition discovered (fs : os.FileSystem) (p : parts.Parts)
    (A f full : string) : Prop :=
  let mode := (parts.StatMode fs A).1 in
  if parts.IsDir mode then
    exists fileNames,
      os.DirNames fs A = inr fileNames /\ f ∈ fileNames /\
      full = filepath.Join A f /\
      parts.filter p f (parts.StatMode fs full).1
        (parts.RegExpFilter (parts.Config_ p)) = true
  else
    f = filepath.Base A /\ full = A /\ parts.filter p f mode None = true.

(** Both masks meet the mode. *)
Definition meetsMasks (p : parts.Parts) (mode : parts.FileMode) : Prop :=
  Z.land mode (parts.ModePermFilter (parts.Config_ p)) <> 0 /\
  Z.land mode (parts.ModeTypeFilter (parts.Config_ p)) <> 0.

(** Sessions over the test tree. *)
Definition confConfig (reverse : bool) : parts.Config :=
  {| parts.Reverse := reverse;
     parts.ModeTypeFilter := parts.DefaultModeTypeFilter;
     parts.ModePermFilter := parts.DefaultModePermFilter;
     parts.RegExpFilter := Some testdata.confSuffix |}.

Definition confParts : parts.Parts :=
  parts.NewParts testdata.testDataPaths (Some (confConfig false)).

Definition overrideParts : parts.Parts :=
  parts.NewParts ["testdata/etc"; "testdata/usr/lib"] None.

(** The lists the package documentation gives for the test tree. *)
Definition confNames : list string :=
  ["testdata/etc/10-both.conf"; "testdata/etc/10-only-etc.conf";
   "testdata/usr/lib/10-only-lib.conf"; "testdata/etc/20-only-etc.conf";
   "testdata/usr/lib/20-only-lib.conf"; "testdata/etc/30-symlink.conf";
   "testdata/usr/lib/nodigits.conf"; "testdata/test.conf"].

Definition overrideNames : list string :=
  ["testdata/etc/10-both.conf"; "testdata/usr/lib/10-executable.sh";
   "testdata/etc/10-only-etc.conf"; "testdata/usr/lib/10-only-lib.conf";
   "testdata/etc/20-only-etc.conf"; "testdata/usr/lib/20-only-lib.conf";
   "testdata/etc/30-symlink.conf"; "testdata/usr/lib/40-noconf";
   "testdata/usr/lib/nodigits.conf"].

(** The loop of a caller that reads the stream to its end, as the
    tests of the package write it: call [Read], append the bytes read,
    stop at the first error. [None] when [fuel] rounds did not reach an
    error. *)
Fixpoint readAll (fuel : nat) (fs : os.FileSystem) (k : nat)
    (p : parts.Parts) (table : list os.File) (contents : list Byte.byte)
    : option (go (list Byte.byte * error)) :=
  match fuel with
  | O => None
  | S fuel' =>
      match parts.Read fs k p table with
      | (Panic msg, _, _) => Some (Panic msg)
      | (Ret (bs, err), p', table') =>
          let contents' := contents ++ bs in
          match err with
          | Some e => Some (Ret (contents', e))
          | None => readAll fuel' fs k p' table' contents'
          end
      end
  end.

(** The test tree with one fault injected: opening [denied] fails,
    closing any handle fails. *)
Definition faulty (denied : string) : os.FileSystem :=
  {| os.Stat := os.Stat testdata.fs;
     os.Lstat := os.Lstat testdata.fs;
     os.OpenErr := fun name =>
       if String.eqb name denied
       then Some (PathError "open" name "permission denied")
       else os.OpenErr testdata.fs name;
     os.DirNames := os.DirNames testdata.fs;
     os.Contents := os.Contents testdata.fs;
     os.ReadErr := os.ReadErr testdata.fs;
     os.CloseErr := fun name =>
       Some (PathError "close" name "input/output error") |}.

Definition deniedFs : os.FileSystem := faulty "testdata/etc/10-only-etc.conf".

(** No open is refused here; every close fails. *)
Definition closeFailFs : os.FileSystem := faulty "".

(** The file [os.Open] puts in the table. *)
Definition newFile (fs : os.FileSystem) (name : string) : os.File :=
  {| os.path := name; os.unread := os.Contents fs name; os.closed := false |}.

(** [streams fs table rs cs]: the readers [rs] are distinct handles of
    [table], each open, the i-th with the bytes [cs !! i] left to read
    and a clean end of file behind them. *)
Definition streams (fs : os.FileSystem) (table : list os.File)
    (rs : list (option nat)) (cs : list (list Byte.byte)) : Prop :=
  NoDup rs /\
  Forall2 (fun r c => exists fd f,
             r = Some fd /\ table !! fd = Some f /\ os.unread f = c /\
             os.closed f = false /\ os.ReadErr fs (os.path f) = None)
    rs cs.

(** The test tree on a failing disk: reading [testdata/test.conf]
    runs into an I/O error after its last byte. *)
Definition readFailFs : os.FileSystem :=
  {| os.Stat := os.Stat testdata.fs;
     os.Lstat := os.Lstat testdata.fs;
     os.OpenErr := os.OpenErr testdata.fs;
     os.DirNames := os.DirNames testdata.fs;
     os.Contents := os.Contents testdata.fs;
     os.ReadErr := fun name =>
       if String.eqb name "testdata/test.conf"
       then Some (PathError "read" name "input/output error")
       else None;
     os.CloseErr := os.CloseErr testdata.fs |}.

(** The same session over another list of paths. *)
Definition withPaths (p : parts.Parts) (paths : list string) : parts.Parts :=
  {| parts.Paths := paths;
     parts.Config_ := parts.Config_ p;
     parts.readState_ := parts.readState_ p |}.

(** The error the scan of a directory listing stops on, if any: the
    first child that cannot be examined. *)
Fixpoint scanDirErr (fs : os.FileSystem) (path : string)
    (fileNames : list string) : option error :=
  match fileNames with
  | [] => None
  | fileName :: rest =>
      match (parts.StatMode fs (filepath.Join path fileName)).2 with
      | Some err => Some (parts.Errorf err)
      | None => scanDirErr fs path rest
      end
  end.

(** The error the scan of a path list stops on, if any. *)
Fixpoint scanPathsErr (fs : os.FileSystem) (paths : list string)
    : option error :=
  match paths with
  | [] => None
  | path :: rest =>
      match parts.StatMode fs path with
      | (_, Some err) => Some (parts.Errorf err)
      | (mode, None) =>
          if parts.IsDir mode then
            match os.OpenErr fs path with
            | Some err => Some (parts.Errorf err)
            | None =>
                match os.DirNames fs path with
                | inl err => Some (parts.Errorf err)
                | inr fileNames =>
                    match scanDirErr fs path fileNames with
                    | Some err => Some err
                    | None => scanPathsErr fs rest
                    end
                end
            end
          else scanPathsErr fs rest
      end
  end.

(** [full] is the candidate with base name [k] that the input path
    [path] yields: the join of the directory with a name of its
    listing, or the path itself when it is not a directory. *)
Definition entry (fs : os.FileSystem) (path k full : string) : Prop :=
  let mode := (parts.StatMode fs path).1 in
  if parts.IsDir mode then
    exists fileNames,
      os.DirNames fs path = inr fileNames /\ k ∈ fileNames /\
      full = filepath.Join path k
  else k = filepath.Base path /\ full = path.

(** The candidate satisfies the conditions of the filter: its mode
    meets both masks and, when a directory listed it, its base name
    matches the pattern [re]. *)
Definition admitted (fs : os.FileSystem) (p : parts.Parts)
    (re : regexp.Regexp) (path k full : string) : Prop :=
  let mode := (parts.StatMode fs path).1 in
  if parts.IsDir mode then
    exists fileNames,
      os.DirNames fs path = inr fileNames /\ k ∈ fileNames /\
      full = filepath.Join path k /\
      meetsMasks p (parts.StatMode fs full).1 /\
      regexp.MatchString re k = true
  else k = filepath.Base path /\ full = path /\ meetsMasks p mode.

(** * Properties *)

(** ** Paths *)
Section path_facts.
Import filepath.

Lemma list_ascii_of_string_app (a b : string) :
  String.list_ascii_of_string (a +:+ b)
  = String.list_ascii_of_string a ++ String.list_ascii_of_string b.
Proof. induction a as [|c a IH]; simpl; [done | by rewrite IH]. Qed.

Lemma string_eqb_empty (s : string) :
  String.eqb s "" = bool_decide (String.list_ascii_of_string s = []).
Proof. by destruct s. Qed.

Lemma split_nonempty (l : list ascii) : split l <> [].
Proof.
  destruct l as [|c l]; simpl; [done|].
  destruct (IsPathSeparator c); [done|]. by destruct (split l).
Qed.

Lemma split_app_separator (x y : list ascii) :
  split (x ++ Separator :: y) = split x ++ split y.
Proof.
  induction x as [|c x IH]; simpl.
  - done.
  - destruct (IsPathSeparator c); [by rewrite IH|].
    rewrite IH. destruct (split x) as [|e es] eqn:E; [|done].
    by destruct (split_nonempty x).
Qed.

Lemma split_element (l : list ascii) :
  forallb (fun c => negb (IsPathSeparator c)) l = true -> split l = [l].
Proof.
  induction l as [|c l IH]; simpl; [done|].
  intros [Hc Hl]%andb_true_iff. apply negb_true_iff in Hc. rewrite Hc.
  by rewrite (IH Hl).
Qed.

Lemma joinElements_snoc (es : list (list ascii)) (l : list ascii) :
  joinElements (es ++ [l])
  = match es with
    | [] => l
    | _ => joinElements es ++ Separator :: l
    end.
Proof.
  induction es as [|e es IH]; [done|].
  change ((e :: es) ++ [l]) with (e :: (es ++ [l])).
  destruct es as [|e' es]; [done|].
  change (joinElements (e :: (e' :: es) ++ [l]))
    with (e ++ Separator :: joinElements ((e' :: es) ++ [l])).
  rewrite IH. simpl. by rewrite <-app_assoc.
Qed.

Lemma element_app (l x : list ascii) :
  forallb (fun c => negb (IsPathSeparator c)) l = true ->
  closedPrefix x -> element (rev l ++ rev x) = rev l.
Proof.
  intros Hl Hx.
  assert (Hrev : forallb (fun c => negb (IsPathSeparator c)) (rev l) = true).
  { apply forallb_forall. intros c Hc. apply in_rev in Hc.
    by apply (proj1 (forallb_forall _ _) Hl). }
  clear Hl. induction (rev l) as [|c r IH]; simpl.
  - destruct Hx as [->|[x' ->]]; [done|].
    by rewrite rev_app_distr.
  - simpl in Hrev. apply andb_true_iff in Hrev as [Hc Hr].
    apply negb_true_iff in Hc. rewrite Hc. by rewrite (IH Hr).
Qed.

Lemma Base_closedPrefix (x l : list ascii) :
  l <> [] -> forallb (fun c => negb (IsPathSeparator c)) l = true ->
  closedPrefix x ->
  Base (String.string_of_list_ascii (x ++ l)) = String.string_of_list_ascii l.
Proof.
  intros Hne Hl Hx. unfold Base.
  rewrite string_eqb_empty, String.list_ascii_of_string_of_list_ascii.
  rewrite bool_decide_eq_false_2 by (by destruct x, l).
  rewrite rev_app_distr.
  assert (Hstrip : stripSeparators (rev l ++ rev x) = rev l ++ rev x).
  { destruct (rev l) as [|c r] eqn:E.
    - apply (f_equal (@rev _)) in E. rewrite rev_involutive in E. done.
    - simpl. assert (Hc : In c l) by (apply in_rev; rewrite E; by left).
      apply (proj1 (forallb_forall _ _) Hl), negb_true_iff in Hc.
      by rewrite Hc. }
  rewrite Hstrip, element_app by done.
  destruct (rev l) as [|c r] eqn:E.
  - apply (f_equal (@rev _)) in E. rewrite rev_involutive in E. done.
  - by rewrite <-E, rev_involutive.
Qed.

Lemma cleanStep_element rooted st (l : list ascii) :
  l <> [] -> l <> dot -> l <> dotdot ->
  cleanStep rooted st l = (st.1, l :: st.2).
Proof.
  intros H1 H2 H3. destruct st as [k stack]. unfold cleanStep.
  by rewrite !decide_False.
Qed.

Lemma Clean_last_element (x l : list ascii) :
  l <> [] -> l <> dot -> l <> dotdot ->
  forallb (fun c => negb (IsPathSeparator c)) l = true ->
  x = [] \/ (exists x', x = x' ++ [Separator] /\ x' <> []) ->
  exists y, closedPrefix y /\
    Clean (String.string_of_list_ascii (x ++ l))
    = String.string_of_list_ascii (y ++ l).
Proof.
  intros H1 H2 H3 Hl Hx. unfold Clean.
  rewrite String.list_ascii_of_string_of_list_ascii.
  destruct (x ++ l) as [|c xl] eqn:Exl; [by destruct x, l|].
  rewrite <-Exl.
  assert (Hsplit : exists es, split (x ++ l) = es ++ [l]).
  { destruct Hx as [->|[x' [-> _]]].
    - exists []. by apply split_element.
    - rewrite <-app_assoc. simpl. rewrite split_app_separator.
      rewrite (split_element l Hl). eauto. }
  destruct Hsplit as [es ->]. rewrite fold_left_app. simpl.
  rewrite cleanStep_element by done.
  destruct (fold_left (cleanStep (IsPathSeparator c)) es (0%nat, []))
    as [k stack]. simpl.
  rewrite joinElements_snoc.
  set (pre := if IsPathSeparator c then [Separator] else []).
  exists (pre ++ match rev stack with
                 | [] => []
                 | _ => joinElements (rev stack) ++ [Separator]
                 end).
  split.
  - destruct (rev stack) as [|e0 es0].
    + rewrite app_nil_r. unfold pre.
      destruct (IsPathSeparator c); [right; by exists []|by left].
    + right. exists (pre ++ joinElements (e0 :: es0)). by rewrite app_assoc.
  - assert (Hout :
      (if IsPathSeparator c
       then Separator :: match rev stack with
                         | [] => l
                         | _ :: _ => joinElements (rev stack) ++ Separator :: l
                         end
       else match rev stack with
            | [] => l
            | _ :: _ => joinElements (rev stack) ++ Separator :: l
            end)
      = (pre ++ match rev stack with
                | [] => []
                | _ => joinElements (rev stack) ++ [Separator]
                end) ++ l).
    { unfold pre. destruct (IsPathSeparator c), (rev stack); simpl;
        rewrite <-?app_assoc; done. }
    rewrite Hout.
    destruct ((pre ++ _) ++ l) as [|c' r] eqn:E; [|done].
    apply app_eq_nil in E as [_ ?]. done.
Qed.

(** A listed name survives [Join] as the base name of the result. *)
Lemma Base_Join (dir f : string) :
  validName f = true -> Base (Join dir f) = f.
Proof.
  unfold validName. intros H.
  apply andb_true_iff in H as [H Hsep].
  apply andb_true_iff in H as [H H3].
  apply andb_true_iff in H as [H1 H2].
  apply bool_decide_eq_true in H1, H2, H3.
  set (l := String.list_ascii_of_string f) in *.
  assert (Hf : f = String.string_of_list_ascii l)
    by (unfold l; by rewrite String.string_of_list_ascii_of_string).
  unfold Join. rewrite !string_eqb_empty.
  rewrite (bool_decide_eq_false_2 (String.list_ascii_of_string f = [])) by done.
  destruct (bool_decide _) eqn:Edir.
  - destruct (Clean_last_element [] l H1 H2 H3 Hsep) as (y & Hy & Hc);
      [by left|].
    simpl in Hc. rewrite <-Hf in Hc. rewrite Hc.
    rewrite Base_closedPrefix by done. done.
  - apply bool_decide_eq_false in Edir.
    destruct (Clean_last_element
                (String.list_ascii_of_string dir ++ [Separator]) l
                H1 H2 H3 Hsep) as (y & Hy & Hc).
    { right. eauto. }
    assert (Hpath : dir +:+ "/" +:+ f
                    = String.string_of_list_ascii
                        ((String.list_ascii_of_string dir ++ [Separator]) ++ l)).
    { rewrite <-(String.string_of_list_ascii_of_string (dir +:+ "/" +:+ f)).
      f_equal. rewrite !list_ascii_of_string_app, <-app_assoc. done. }
    rewrite Hpath, Hc. rewrite Base_closedPrefix by done. done.
Qed.

End path_facts.

(** ** Order of base names *)

Lemma string_compare_lt_trans (a b c : string) :
  String.compare a b = Lt -> String.compare b c = Lt -> String.compare a c = Lt.
Proof.
  intros Hab Hbc.
  apply OrderedTypeEx.String_as_OT.cmp_lt.
  eapply OrderedTypeEx.String_as_OT.lt_trans;
    apply OrderedTypeEx.String_as_OT.cmp_lt; eassumption.
Qed.

Lemma string_compare_refl (a : string) : String.compare a a = Eq.
Proof.
  destruct (String.compare a a) eqn:E; [done| |];
    pose proof (String.compare_antisym a a) as H; rewrite E in H; done.
Qed.

Lemma Less_baseLt (a b : string) : parts.Less a b = true <-> baseLt a b.
Proof.
  unfold parts.Less, strings.Compare, baseLt.
  destruct (String.compare _ _); simpl; split; (done || lia || idtac).
Qed.

Lemma baseLt_trans (a b c : string) : baseLt a b -> baseLt b c -> baseLt a c.
Proof. apply string_compare_lt_trans. Qed.

Lemma baseLt_asym (a b : string) : baseLt a b -> baseLt b a -> False.
Proof.
  unfold baseLt. intros H1 H2.
  rewrite String.compare_antisym, H2 in H1. done.
Qed.

Lemma baseLt_total (a b : string) :
  filepath.Base a <> filepath.Base b -> baseLt a b \/ baseLt b a.
Proof.
  unfold baseLt. intros Hne.
  destruct (String.compare (filepath.Base a) (filepath.Base b)) eqn:E.
  - by apply String.compare_eq_iff in E.
  - by left.
  - right. rewrite String.compare_antisym, E. done.
Qed.

Global Instance baseLt_Transitive : Transitive baseLt.
Proof. intros a b c. apply baseLt_trans. Qed.

Global Instance flip_baseLt_Transitive : Transitive (flip baseLt).
Proof. intros a b c H1 H2. exact (baseLt_trans _ _ _ H2 H1). Qed.

(** ** Sorting *)
Section sort_facts.
Context {A : Type} (less : A -> A -> bool).
Hypothesis less_asym : forall a b, less a b = true -> less b a = false.
Hypothesis less_trans :
  forall a b c, less a b = true -> less b c = true -> less a c = true.

Lemma insert_Permutation (x : A) (l : list A) :
  sort.insert less x l ≡ₚ x :: l.
Proof.
  induction l as [|y l IH]; simpl; [done|].
  destruct (less x y); [done|]. rewrite IH. apply Permutation_swap.
Qed.

Lemma Sort_Permutation (l : list A) : sort.Sort less l ≡ₚ l.
Proof.
  induction l as [|x l IH]; simpl; [done|].
  unfold sort.Sort in IH. by rewrite insert_Permutation, IH.
Qed.

Lemma insert_sorted (x : A) (l : list A) :
  StronglySorted (fun a b => less b a = false) l ->
  StronglySorted (fun a b => less b a = false) (sort.insert less x l).
Proof.
  induction 1 as [|y l Hl IH Hy]; simpl.
  - repeat constructor.
  - destruct (less x y) eqn:E.
    + constructor; [by constructor|].
      constructor; [by apply less_asym|].
      eapply Forall_impl; [exact Hy|]. intros z Hz. simpl in Hz.
      destruct (less z x) eqn:Ezx; [|done].
      by rewrite (less_trans _ _ _ Ezx E) in Hz.
    + constructor; [done|].
      rewrite insert_Permutation. by constructor.
Qed.

Lemma Sort_sorted (l : list A) :
  StronglySorted (fun a b => less b a = false) (sort.Sort less l).
Proof.
  induction l as [|x l IH]; simpl; [constructor|]. by apply insert_sorted.
Qed.

(** With pairwise distinct keys that [less] tells apart, the order is
    strict. *)
Lemma sorted_strict {K : Type} (key : A -> K) (l : list A) :
  (forall a b, less a b = false -> less b a = false -> key a = key b) ->
  NoDup (key <$> l) ->
  StronglySorted (fun a b => less b a = false) l ->
  StronglySorted (fun a b => less a b = true) l.
Proof.
  intros Htot Hnd Hs. induction Hs as [|x l Hl IH Hx]; [constructor|].
  rewrite fmap_cons in Hnd. apply NoDup_cons in Hnd as [Hnotin Hnd].
  constructor; [by apply IH|].
  rewrite Forall_forall in Hx. apply Forall_forall. intros y Hy.
  destruct (less x y) eqn:E; [done|]. exfalso. apply Hnotin.
  rewrite (Htot x y E (Hx y Hy)). by apply list_elem_of_fmap_2.
Qed.

End sort_facts.

Lemma StronglySorted_weaken {A} (R1 R2 : A -> A -> Prop) (l : list A) :
  (forall a b, R1 a b -> R2 a b) -> StronglySorted R1 l -> StronglySorted R2 l.
Proof.
  intros HR. induction 1 as [|x l Hl IH Hx]; constructor; [done|].
  eapply Forall_impl; [exact Hx|]. intros y. apply HR.
Qed.

(** Two lists with the same elements, both strictly ordered by base
    name, are the same list: whatever order the map is ranged in and
    whatever permutation the sorting routine goes through, the outcome
    is fixed. *)
Lemma sorted_permutation_unique (l1 l2 : list string) :
  ascending l1 -> ascending l2 -> l1 ≡ₚ l2 -> l1 = l2.
Proof.
  apply StronglySorted_unique_strong.
  intros x1 x2 _ _ H1 H2. destruct (baseLt_asym _ _ H1 H2).
Qed.

Lemma sorted_permutation_unique_desc (l1 l2 : list string) :
  descending l1 -> descending l2 -> l1 ≡ₚ l2 -> l1 = l2.
Proof.
  apply StronglySorted_unique_strong.
  intros x1 x2 _ _ H1 H2. destruct (baseLt_asym _ _ H1 H2).
Qed.

Lemma ascending_rev (l : list string) : ascending l -> descending (rev l).
Proof.
  unfold ascending, descending. intros H.
  apply Sorted_StronglySorted; [apply _|].
  rewrite rev_alt. apply (Sorted_reverse baseLt).
  by apply StronglySorted_Sorted.
Qed.

Lemma sortNames_Permutation (reverse : bool) (names : list string) :
  parts.sortNames reverse names ≡ₚ names.
Proof. unfold parts.sortNames. destruct reverse; apply Sort_Permutation. Qed.

Lemma Less_trichotomy (a b : string) :
  parts.Less a b = false -> parts.Less b a = false ->
  filepath.Base a = filepath.Base b.
Proof.
  intros H1 H2. destruct (decide (filepath.Base a = filepath.Base b)) as [|Hne];
    [done|].
  destruct (baseLt_total a b Hne) as [H|H]; apply Less_baseLt in H; congruence.
Qed.

Lemma Less_asym (a b : string) :
  parts.Less a b = true -> parts.Less b a = false.
Proof.
  intros H. destruct (parts.Less b a) eqn:E; [|done].
  apply Less_baseLt in H, E. destruct (baseLt_asym _ _ H E).
Qed.

Lemma Less_trans (a b c : string) :
  parts.Less a b = true -> parts.Less b c = true -> parts.Less a c = true.
Proof. rewrite !Less_baseLt. apply baseLt_trans. Qed.

Lemma sortNames_ascending (names : list string) :
  NoDup (filepath.Base <$> names) -> ascending (parts.sortNames false names).
Proof.
  intros Hnd. unfold ascending, parts.sortNames.
  eapply StronglySorted_weaken; [intros a b; apply Less_baseLt|].
  eapply (sorted_strict parts.Less filepath.Base);
    [apply Less_trichotomy| |apply Sort_sorted; [apply Less_asym|apply Less_trans]].
  by rewrite (Sort_Permutation parts.Less names).
Qed.

Lemma sortNames_descending (names : list string) :
  NoDup (filepath.Base <$> names) -> descending (parts.sortNames true names).
Proof.
  intros Hnd. unfold descending, parts.sortNames.
  eapply StronglySorted_weaken;
    [intros a b H; apply Less_baseLt; exact H|].
  eapply (sorted_strict (sort.Reverse parts.Less) filepath.Base).
  - unfold sort.Reverse. intros a b H1 H2. by apply Less_trichotomy.
  - by rewrite (Sort_Permutation _ names).
  - apply Sort_sorted; unfold sort.Reverse.
    + intros a b. apply Less_asym.
    + intros a b c H1 H2. exact (Less_trans _ _ _ H2 H1).
Qed.

(** Any arrangement of the same paths that the contract of
    [sort.Sort] allows is the list the model computes. *)
Lemma sortNames_any_order (reverse : bool) (names sorted : list string) :
  NoDup (filepath.Base <$> names) ->
  sorted ≡ₚ names ->
  StronglySorted
    (fun a b => (if reverse then sort.Reverse parts.Less else parts.Less) b a
                = false) sorted ->
  sorted = parts.sortNames reverse names.
Proof.
  intros Hnd Hperm Hsorted.
  assert (Hnd' : NoDup (filepath.Base <$> sorted)) by (by rewrite Hperm).
  destruct reverse.
  - apply sorted_permutation_unique_desc.
    + eapply StronglySorted_weaken;
        [intros a b H; apply Less_baseLt; exact H|].
      eapply (sorted_strict (sort.Reverse parts.Less) filepath.Base);
        [|exact Hnd'|exact Hsorted].
      unfold sort.Reverse. intros a b H1 H2. by apply Less_trichotomy.
    + by apply sortNames_descending.
    + by rewrite sortNames_Permutation.
  - apply sorted_permutation_unique.
    + eapply StronglySorted_weaken; [intros a b; apply Less_baseLt|].
      eapply (sorted_strict parts.Less filepath.Base);
        [apply Less_trichotomy|exact Hnd'|exact Hsorted].
    + by apply sortNames_ascending.
    + by rewrite sortNames_Permutation.
Qed.

Lemma sortNames_reverse (names : list string) :
  NoDup (filepath.Base <$> names) ->
  parts.sortNames true names = rev (parts.sortNames false names).
Proof.
  intros Hnd. apply sorted_permutation_unique_desc.
  - by apply sortNames_descending.
  - by apply ascending_rev, sortNames_ascending.
  - rewrite <-Permutation_rev. by rewrite !sortNames_Permutation.
Qed.

(** ** The scan as a fold over candidates *)

Lemma scanDir_record fs p path fileNames found found' :
  parts.scanDir fs p path fileNames found = inr found' ->
  found' = foldl record found (dirCandidate fs p path <$> fileNames).
Proof.
  revert found. induction fileNames as [|f fileNames IH]; intros found; simpl.
  - by intros [= ->].
  - unfold record at 2. simpl.
    destruct (parts.StatMode fs (filepath.Join path f)) as [mode [err|]];
      [done|]. simpl.
    destruct (found !! f); [by apply IH|].
    destruct (parts.filter p f mode _); by apply IH.
Qed.

Lemma scanPaths_record fs p paths found found' :
  parts.scanPaths fs p paths found = inr found' ->
  found' = foldl record found (paths ≫= candidates fs p).
Proof.
  revert found. induction paths as [|path paths IH]; intros found; simpl.
  - by intros [= ->].
  - unfold candidates.
    destruct (parts.StatMode fs path) as [mode [err|]]; [done|]. simpl.
    destruct (parts.IsDir mode).
    + destruct (os.OpenErr fs path); [done|].
      destruct (os.DirNames fs path) as [err|fileNames]; [done|].
      destruct (parts.scanDir fs p path fileNames found) as [err|found1] eqn:E;
        [done|].
      intros H. apply IH in H. rewrite foldl_app.
      by rewrite <-(scanDir_record _ _ _ _ _ _ E).
    + simpl. unfold record at 2. simpl.
      destruct (found !! filepath.Base path); [by apply IH|].
      destruct (parts.filter p (filepath.Base path) mode None); by apply IH.
Qed.

Lemma lookup_record found c k :
  record found c !! k
  = match found !! k with
    | Some v => Some v
    | None => if bool_decide (cName c = k) && cPass c then Some (cPath c)
              else None
    end.
Proof.
  unfold record. destruct (decide (cName c = k)) as [<-|Hne].
  - rewrite bool_decide_eq_true_2 by done. simpl.
    destruct (found !! cName c) eqn:E; [by rewrite E|].
    destruct (cPass c); [by rewrite lookup_insert_eq|by rewrite E].
  - rewrite bool_decide_eq_false_2 by done. simpl.
    destruct (found !! cName c) eqn:E; [by destruct (found !! k)|].
    destruct (cPass c); [|by destruct (found !! k)].
    rewrite lookup_insert_ne by done. by destruct (found !! k).
Qed.

Lemma lookup_foldl_record cs found k :
  foldl record found cs !! k
  = match found !! k with
    | Some v => Some v
    | None => firstPass k cs
    end.
Proof.
  revert found. induction cs as [|c cs IH]; intros found; simpl.
  - by destruct (found !! k).
  - rewrite IH, lookup_record. destruct (found !! k); [done|].
    by destruct (bool_decide (cName c = k) && cPass c).
Qed.

Lemma firstPass_Some k cs v :
  firstPass k cs = Some v ->
  exists c, c ∈ cs /\ cName c = k /\ cPath c = v /\ cPass c = true.
Proof.
  induction cs as [|c cs IH]; simpl; [done|].
  destruct (bool_decide (cName c = k) && cPass c) eqn:E.
  - intros [= <-]. apply andb_true_iff in E as [E1 E2].
    apply bool_decide_eq_true in E1. exists c. split; [by left|done].
  - intros H. destruct (IH H) as (c' & ? & ?). exists c'. split; [by right|done].
Qed.

Lemma firstPass_None k cs :
  firstPass k cs = None ->
  forall c, c ∈ cs -> cName c = k -> cPass c = false.
Proof.
  induction cs as [|c cs IH]; simpl; [by intros _ c' ?%elem_of_nil|].
  destruct (bool_decide (cName c = k) && cPass c) eqn:E; [done|].
  intros H c' [->|Hin]%elem_of_cons Hk.
  - rewrite bool_decide_eq_true_2 in E by done. done.
  - by apply IH.
Qed.

Lemma firstPass_app k cs1 cs2 :
  firstPass k (cs1 ++ cs2)
  = match firstPass k cs1 with
    | Some v => Some v
    | None => firstPass k cs2
    end.
Proof.
  induction cs1 as [|c cs1 IH]; simpl; [done|].
  by destruct (bool_decide (cName c = k) && cPass c).
Qed.

(** Candidates of a well-formed file system are filed under the base
    name of their path. *)
Lemma candidates_base fs p path c :
  wellFormed fs -> c ∈ candidates fs p path ->
  filepath.Base (cPath c) = cName c.
Proof.
  intros Hwf. unfold candidates.
  destruct (parts.IsDir _).
  - destruct (os.DirNames fs path) as [err|fileNames] eqn:E;
      [by intros ?%elem_of_nil|].
    intros (f & -> & Hf)%list_elem_of_fmap. simpl.
    apply Base_Join. specialize (Hwf _ _ E). rewrite Forall_forall in Hwf.
    by apply Hwf.
  - by intros ->%list_elem_of_singleton.
Qed.

Lemma all_candidates_base fs p paths c :
  wellFormed fs -> c ∈ paths ≫= candidates fs p ->
  filepath.Base (cPath c) = cName c.
Proof.
  intros Hwf (path & Hc & _)%list_elem_of_bind. by eapply candidates_base.
Qed.

(** What a successful scan leaves in the map. *)
Lemma scanPaths_lookup fs p found k :
  parts.scanPaths fs p (parts.Paths p) ∅ = inr found ->
  found !! k = firstPass k (parts.Paths p ≫= candidates fs p).
Proof.
  intros ->%scanPaths_record. by rewrite lookup_foldl_record, lookup_empty.
Qed.

Lemma scanPaths_base fs p found k v :
  wellFormed fs ->
  parts.scanPaths fs p (parts.Paths p) ∅ = inr found ->
  found !! k = Some v -> filepath.Base v = k.
Proof.
  intros Hwf Hscan. rewrite (scanPaths_lookup _ _ _ _ Hscan).
  intros (c & Hc & <- & <- & _)%firstPass_Some. by eapply all_candidates_base.
Qed.

Lemma elem_of_rangeValues (found : gmap string string) (q : string) :
  q ∈ parts.rangeValues found <-> exists k, found !! k = Some q.
Proof.
  unfold parts.rangeValues. rewrite list_elem_of_fmap. split.
  - intros ([k v] & -> & H%elem_of_map_to_list). by exists k.
  - intros (k & H). exists (k, q). by rewrite elem_of_map_to_list.
Qed.

Lemma rangeValues_base_NoDup fs p found :
  wellFormed fs ->
  parts.scanPaths fs p (parts.Paths p) ∅ = inr found ->
  NoDup (filepath.Base <$> parts.rangeValues found).
Proof.
  intros Hwf Hscan. unfold parts.rangeValues.
  assert (Heq : filepath.Base <$> (map_to_list found).*2
                = (map_to_list found).*1).
  { rewrite <-list_fmap_compose. apply list_fmap_ext.
    intros i [k v] H%list_elem_of_lookup_2%elem_of_map_to_list. simpl.
    by eapply scanPaths_base. }
  rewrite Heq. apply NoDup_fst_map_to_list.
Qed.

(** The shapes a normal return of [Readdirnames] can take. *)
Lemma Readdirnames_Ret fs p n names :
  parts.Readdirnames fs p n = Ret (names, None) ->
  exists found,
    parts.scanPaths fs p (parts.Paths p) ∅ = inr found /\
    let full := parts.sortNames (parts.Reverse (parts.Config_ p))
                  (parts.rangeValues found) in
    (names = full /\ (n = 0 \/ Z.of_nat (length full) <= n)) \/
    (0 < n < Z.of_nat (length full) /\ names = take (Z.to_nat n) full).
Proof.
  unfold parts.Readdirnames.
  destruct (parts.scanPaths fs p (parts.Paths p) ∅) as [err|found]; [done|].
  intros H. exists found. split; [done|]. simpl.
  destruct (n =? 0) eqn:E0.
  - left. split; [congruence|]. left. lia.
  - destruct (n <? _) eqn:Elt.
    + unfold slice in H. simpl in H.
      destruct (n <? 0) eqn:Eneg; [done|]. simpl in H.
      destruct (_ <? n) eqn:Egt; [done|].
      right. split; [lia|]. rewrite Z.sub_0_r in H.
      change (Z.to_nat 0) with 0%nat in H. rewrite drop_0 in H. congruence.
    + left. split; [congruence|]. right. lia.
Qed.

Lemma StronglySorted_take {A} (R : A -> A -> Prop) (n : nat) (l : list A) :
  StronglySorted R l -> StronglySorted R (take n l).
Proof.
  intros H. rewrite <-(take_drop n l) in H.
  by apply StronglySorted_app_1_l in H.
Qed.

Lemma scanDir_withReverse fs p b path fileNames found :
  parts.scanDir fs (withReverse p b) path fileNames found
  = parts.scanDir fs p path fileNames found.
Proof.
  revert found. induction fileNames as [|f fileNames IH]; intros found;
    simpl; [done|].
  destruct (parts.StatMode fs (filepath.Join path f)) as [mode [err|]];
    [done|].
  change (parts.filter (withReverse p b) f mode
            (parts.RegExpFilter (parts.Config_ p)))
    with (parts.filter p f mode (parts.RegExpFilter (parts.Config_ p))).
  by rewrite !IH.
Qed.

Lemma scanPaths_withReverse fs p b paths found :
  parts.scanPaths fs (withReverse p b) paths found
  = parts.scanPaths fs p paths found.
Proof.
  revert found. induction paths as [|path paths IH]; intros found;
    simpl; [done|].
  destruct (parts.StatMode fs path) as [mode [err|]]; [done|].
  change (parts.filter (withReverse p b) (filepath.Base path) mode None)
    with (parts.filter p (filepath.Base path) mode None).
  destruct (parts.IsDir mode).
  - destruct (os.OpenErr fs path); [done|].
    destruct (os.DirNames fs path); [done|].
    rewrite scanDir_withReverse.
    destruct (parts.scanDir _ _ _ _ _); [done|]. apply IH.
  - by rewrite !IH.
Qed.

(** ** Resolution: [Readdirnames] *)

(** C8. Whatever the configuration, the paths and the limit, a
    resolution that succeeds returns full paths whose base names are
    pairwise distinct (on a file system whose directory listings hold
    valid entry names). *)
Theorem C8_no_duplicate_base_names fs p n names :
  wellFormed fs ->
  parts.Readdirnames fs p n = Ret (names, None) ->
  NoDup (filepath.Base <$> names).
Proof.
  intros Hwf (found & Hscan & Hshape)%Readdirnames_Ret. simpl in Hshape.
  assert (Hfull : NoDup (filepath.Base <$>
            parts.sortNames (parts.Reverse (parts.Config_ p))
              (parts.rangeValues found))).
  { rewrite sortNames_Permutation. by eapply rangeValues_base_NoDup. }
  destruct Hshape as [[-> _]|[_ ->]]; [done|].
  rewrite fmap_take. eapply sublist_NoDup; [exact Hfull|apply sublist_take].
Qed.

(** C6. With [full] the list returned for the limit [0]: the limit [0]
    returns [full]; a limit strictly between [0] and the length of
    [full] returns its first [n] elements; a limit of at least that
    length returns [full]. *)
Theorem C6_limit fs p full n :
  parts.Readdirnames fs p 0 = Ret (full, None) ->
  (n = 0 -> parts.Readdirnames fs p n = Ret (full, None)) /\
  (0 < n < Z.of_nat (length full) ->
     parts.Readdirnames fs p n = Ret (take (Z.to_nat n) full, None)) /\
  (Z.of_nat (length full) <= n ->
     parts.Readdirnames fs p n = Ret (full, None)).
Proof.
  unfold parts.Readdirnames.
  destruct (parts.scanPaths fs p (parts.Paths p) ∅) as [err|found]; [done|].
  simpl. intros [= <-]. split; [|split].
  - by intros ->.
  - intros [Hpos Hlt].
    rewrite (proj2 (Z.eqb_neq n 0)) by lia.
    rewrite (proj2 (Z.ltb_lt _ _) Hlt).
    unfold slice. simpl.
    rewrite (proj2 (Z.ltb_ge n 0)) by lia. simpl.
    rewrite (proj2 (Z.ltb_ge _ n)) by lia.
    rewrite Z.sub_0_r. change (Z.to_nat 0) with 0%nat. by rewrite drop_0.
  - intros Hge. destruct (n =? 0); [done|].
    by rewrite (proj2 (Z.ltb_ge n _)) by lia.
Qed.

(** C10. A negative limit on a path list whose resolution succeeds
    does not return: the test [n < len(names)] holds and the slice
    expression [names[0:n]] panics. *)
Theorem C10_negative_limit_panics fs p full n :
  parts.Readdirnames fs p 0 = Ret (full, None) ->
  n < 0 ->
  parts.Readdirnames fs p n = Panic "slice bounds out of range".
Proof.
  unfold parts.Readdirnames.
  destruct (parts.scanPaths fs p (parts.Paths p) ∅) as [err|found]; [done|].
  intros _ Hneg.
  rewrite (proj2 (Z.eqb_neq n 0)) by lia.
  rewrite (proj2 (Z.ltb_lt n _)) by lia.
  unfold slice. simpl. by rewrite (proj2 (Z.ltb_lt n 0)) by lia.
Qed.

(** C5 (amended). The full paths a resolution returns are strictly
    ordered by base name, ascending when [Reverse] is unset and
    descending when it is set; and when the limit does not cut the
    list ([n = 0] or [n] at least the number of resolved entries),
    resolving with the flag flipped returns exactly the reverse list
    (on a file system whose directory listings hold valid entry
    names). *)
Theorem C5_sorted_and_reversed fs p :
  wellFormed fs ->
  (forall n names,
     parts.Readdirnames fs p n = Ret (names, None) ->
     if parts.Reverse (parts.Config_ p) then descending names
     else ascending names) /\
  (forall full n,
     parts.Readdirnames fs p 0 = Ret (full, None) ->
     n = 0 \/ Z.of_nat (length full) <= n ->
     parts.Readdirnames fs
       (withReverse p (negb (parts.Reverse (parts.Config_ p)))) n
     = Ret (rev full, None)).
Proof.
  intros Hwf. split.
  - intros n names (found & Hscan & Hshape)%Readdirnames_Ret.
    simpl in Hshape.
    pose proof (rangeValues_base_NoDup _ _ _ Hwf Hscan) as Hnd.
    destruct (parts.Reverse (parts.Config_ p)).
    + destruct Hshape as [[-> _]|[_ ->]];
        [|apply StronglySorted_take]; by apply sortNames_descending.
    + destruct Hshape as [[-> _]|[_ ->]];
        [|apply StronglySorted_take]; by apply sortNames_ascending.
  - intros full n (found & Hscan & Hshape)%Readdirnames_Ret Hn.
    simpl in Hshape. destruct Hshape as [[-> _]|[? _]]; [|lia].
    pose proof (rangeValues_base_NoDup _ _ _ Hwf Hscan) as Hnd.
    unfold parts.Readdirnames.
    change (parts.Paths (withReverse p _)) with (parts.Paths p).
    rewrite scanPaths_withReverse, Hscan.
    change (parts.Reverse (parts.Config_ (withReverse p ?b))) with b.
    assert (Hrev :
      parts.sortNames (negb (parts.Reverse (parts.Config_ p)))
        (parts.rangeValues found)
      = rev (parts.sortNames (parts.Reverse (parts.Config_ p))
               (parts.rangeValues found))).
    { destruct (parts.Reverse (parts.Config_ p)).
      - change (negb true) with false.
        by rewrite (sortNames_reverse _ Hnd), rev_involutive.
      - exact (sortNames_reverse _ Hnd). }
    rewrite Hrev. destruct (n =? 0) eqn:E0; [done|].
    rewrite length_rev. destruct Hn as [->|Hn]; [done|].
    by rewrite (proj2 (Z.ltb_ge n _)) by lia.
Qed.

Lemma discovered_candidate fs p A f full :
  discovered fs p A f full ->
  {| cName := f; cPath := full; cPass := true |} ∈ candidates fs p A.
Proof.
  unfold discovered, candidates. destruct (parts.IsDir _).
  - intros (fileNames & -> & Hf & -> & Hpass).
    apply list_elem_of_fmap. exists f. split; [|done].
    unfold dirCandidate. by rewrite Hpass.
  - intros (-> & -> & Hpass). rewrite Hpass. by apply list_elem_of_singleton.
Qed.

(** All candidates of one input path that share a base name share the
    full path and the verdict. *)
Lemma candidates_functional fs p A c1 c2 :
  c1 ∈ candidates fs p A -> c2 ∈ candidates fs p A ->
  cName c1 = cName c2 -> c1 = c2.
Proof.
  unfold candidates. destruct (parts.IsDir _).
  - destruct (os.DirNames fs A); [by intros ?%elem_of_nil|].
    intros (f1 & -> & _)%list_elem_of_fmap (f2 & -> & _)%list_elem_of_fmap.
    simpl. by intros ->.
  - by intros ->%list_elem_of_singleton ->%list_elem_of_singleton.
Qed.

Lemma firstPass_is_Some k cs c :
  c ∈ cs -> cName c = k -> cPass c = true -> is_Some (firstPass k cs).
Proof.
  intros Hc Hk Hpass. destruct (firstPass k cs) eqn:E; [by eexists|].
  by rewrite (firstPass_None _ _ E c Hc Hk) in Hpass.
Qed.

Lemma firstPass_discovered fs p A rest f full :
  discovered fs p A f full ->
  firstPass f (candidates fs p A ++ rest) = Some full.
Proof.
  intros Hc%discovered_candidate. rewrite firstPass_app.
  destruct (firstPass_is_Some f _ _ Hc eq_refl eq_refl) as [v Hv].
  rewrite Hv. apply firstPass_Some in Hv as (c & Hin & Hname & <- & _).
  by rewrite (candidates_functional _ _ _ _ _ Hin Hc Hname).
Qed.

Lemma elem_of_names fs p n names q :
  parts.Readdirnames fs p n = Ret (names, None) -> q ∈ names ->
  exists found k,
    parts.scanPaths fs p (parts.Paths p) ∅ = inr found /\
    found !! k = Some q.
Proof.
  intros (found & Hscan & Hshape)%Readdirnames_Ret Hq. simpl in Hshape.
  exists found.
  assert (Hin : q ∈ parts.rangeValues found).
  { rewrite <-(sortNames_Permutation (parts.Reverse (parts.Config_ p))).
    destruct Hshape as [[-> _]|[_ ->]]; [done|].
    eapply elem_of_sublist; [exact Hq|apply sublist_take]. }
  apply elem_of_rangeValues in Hin as [k Hk]. by exists k.
Qed.

Lemma names_of_lookup fs p names found k q :
  parts.Readdirnames fs p 0 = Ret (names, None) ->
  parts.scanPaths fs p (parts.Paths p) ∅ = inr found ->
  found !! k = Some q -> q ∈ names.
Proof.
  intros (found' & Hscan & Hshape)%Readdirnames_Ret Hscan' Hk.
  simpl in Hshape. destruct Hshape as [[-> _]|[? _]]; [|lia].
  rewrite sortNames_Permutation. apply elem_of_rangeValues.
  exists k. congruence.
Qed.

(** C1. With the paths in the order [A] first and [B] later, an entry
    under [A] and an entry under [B] that yield the same base name [f]
    and both pass the filters: every returned path with base name [f]
    is the one discovered under [A], the one under [B] is not returned
    (unless it is the same path), and without a limit the one under
    [A] is returned (on a file system whose directory listings hold
    valid entry names). *)
Theorem C1_earlier_path_wins fs p A B rest f fullA fullB n names :
  wellFormed fs ->
  parts.Paths p = A :: rest -> B ∈ rest ->
  discovered fs p A f fullA -> discovered fs p B f fullB ->
  parts.Readdirnames fs p n = Ret (names, None) ->
  (forall q, q ∈ names -> filepath.Base q = f -> q = fullA) /\
  (fullB <> fullA -> fullB ∉ names) /\
  (n = 0 -> fullA ∈ names).
Proof.
  intros Hwf Hpaths HB HA HdB Hret.
  assert (Hfirst : forall found,
    parts.scanPaths fs p (parts.Paths p) ∅ = inr found ->
    found !! f = Some fullA).
  { intros found Hscan. rewrite (scanPaths_lookup _ _ _ _ Hscan), Hpaths.
    change ((A :: rest) ≫= candidates fs p)
      with (candidates fs p A ++ (rest ≫= candidates fs p)).
    by apply firstPass_discovered. }
  assert (Hq : forall q, q ∈ names -> filepath.Base q = f -> q = fullA).
  { intros q Hin Hbase.
    destruct (elem_of_names _ _ _ _ _ Hret Hin) as (found & k & Hscan & Hk).
    pose proof (scanPaths_base _ _ _ _ _ Hwf Hscan Hk) as Hbk.
    rewrite Hbase in Hbk. subst k.
    rewrite (Hfirst _ Hscan) in Hk. congruence. }
  split; [exact Hq|]. split.
  - intros Hne Hin. apply Hne, Hq; [done|].
    apply discovered_candidate in HdB.
    by apply (candidates_base fs p B _ Hwf HdB).
  - intros ->.
    destruct (Readdirnames_Ret _ _ _ _ Hret) as (found & Hscan & _).
    eapply names_of_lookup; [exact Hret|exact Hscan|by apply Hfirst].
Qed.

Lemma filter_spec p name mode regExp :
  parts.filter p name mode regExp = true <->
  meetsMasks p mode /\
  (forall re, regExp = Some re -> regexp.MatchString re name = true).
Proof.
  unfold parts.filter, meetsMasks.
  set (a := Z.land mode (parts.ModePermFilter (parts.Config_ p))).
  set (b := Z.land mode (parts.ModeTypeFilter (parts.Config_ p))).
  destruct regExp as [re|]; [destruct (regexp.MatchString re name) eqn:E|];
    simpl; destruct (Z.eqb_spec a 0) as [Ha|Ha];
    destruct (Z.eqb_spec b 0) as [Hb|Hb]; split;
    try (intros [[? ?] Hre]; first [done | specialize (Hre re eq_refl); congruence]);
    try done; intros _; (split; [by split|]); intros ?; congruence.
Qed.

Lemma candidate_discovered fs p A c :
  c ∈ candidates fs p A -> cPass c = true ->
  discovered fs p A (cName c) (cPath c).
Proof.
  unfold discovered, candidates. destruct (parts.IsDir _).
  - destruct (os.DirNames fs A) as [err|fileNames]; [by intros ?%elem_of_nil|].
    intros (f & -> & Hf)%list_elem_of_fmap Hpass. by exists fileNames.
  - by intros ->%list_elem_of_singleton.
Qed.

(** Without a limit, the resolved list holds an entry with base name
    [k] exactly when some candidate with that base name meets both
    masks and, if a directory listed it, matches the pattern. *)
Lemma base_names_listed fs p re names :
  wellFormed fs ->
  parts.RegExpFilter (parts.Config_ p) = Some re ->
  parts.Readdirnames fs p 0 = Ret (names, None) ->
  forall k,
    (exists q, q ∈ names /\ filepath.Base q = k) <->
    (exists path, path ∈ parts.Paths p /\
       let mode := (parts.StatMode fs path).1 in
       if parts.IsDir mode then
         exists fileNames,
           os.DirNames fs path = inr fileNames /\ k ∈ fileNames /\
           meetsMasks p (parts.StatMode fs (filepath.Join path k)).1 /\
           regexp.MatchString re k = true
       else k = filepath.Base path /\ meetsMasks p mode).
Proof.
  intros Hwf Hre Hret k.
  destruct (Readdirnames_Ret _ _ _ _ Hret) as (found & Hscan & _).
  assert (Hdisc : (exists path, path ∈ parts.Paths p /\
                     exists full, discovered fs p path k full) <->
    (exists path, path ∈ parts.Paths p /\
       let mode := (parts.StatMode fs path).1 in
       if parts.IsDir mode then
         exists fileNames,
           os.DirNames fs path = inr fileNames /\ k ∈ fileNames /\
           meetsMasks p (parts.StatMode fs (filepath.Join path k)).1 /\
           regexp.MatchString re k = true
       else k = filepath.Base path /\ meetsMasks p mode)).
  { unfold discovered. simpl. split.
    - intros (path & Hin & full & H). exists path. split; [done|].
      destruct (parts.IsDir _).
      + destruct H as (fileNames & Hdir & Hk & -> & Hpass).
        apply filter_spec in Hpass as [Hm Hmatch].
        exists fileNames. repeat split; try done; try apply Hm.
        by apply Hmatch.
      + destruct H as (-> & -> & Hpass).
        apply filter_spec in Hpass as [Hm _]. done.
    - intros (path & Hin & H). exists path. split; [done|].
      destruct (parts.IsDir _).
      + destruct H as (fileNames & Hdir & Hk & Hm & Hmatch).
        exists (filepath.Join path k), fileNames. repeat split; try done.
        apply filter_spec. split; [done|]. rewrite Hre. by intros ? [= <-].
      + destruct H as (-> & Hm). exists path. repeat split.
        apply filter_spec. split; [done|]. done. }
  rewrite <-Hdisc. split.
  - intros (q & Hq & Hbase).
    destruct (elem_of_names _ _ _ _ _ Hret Hq) as (found' & k' & Hscan' & Hk').
    pose proof (scanPaths_base _ _ _ _ _ Hwf Hscan' Hk') as Hbk.
    rewrite Hbase in Hbk. subst k'.
    rewrite (scanPaths_lookup _ _ _ _ Hscan') in Hk'.
    apply firstPass_Some in Hk' as (c & Hc & <- & <- & Hpass).
    apply list_elem_of_bind in Hc as (path & Hc & Hpath).
    exists path. split; [done|]. exists (cPath c).
    by apply candidate_discovered.
  - intros (path & Hpath & full & Hd%discovered_candidate).
    assert (Hc : {| cName := k; cPath := full; cPass := true |}
                 ∈ parts.Paths p ≫= candidates fs p).
    { apply list_elem_of_bind. by exists path. }
    destruct (firstPass_is_Some k _ _ Hc eq_refl eq_refl) as [v Hv].
    rewrite <-(scanPaths_lookup _ _ _ _ Hscan) in Hv.
    exists v. split.
    + by eapply names_of_lookup.
    + by eapply scanPaths_base.
Qed.

Lemma firstPass_None_intro k cs :
  (forall c, c ∈ cs -> cName c = k -> cPass c = false) ->
  firstPass k cs = None.
Proof.
  induction cs as [|c cs IH]; intros H; simpl; [done|].
  destruct (decide (cName c = k)) as [Hk|Hk].
  - rewrite (H c) by (by left || done). rewrite andb_false_r.
    apply IH. intros c' Hin. apply H. by right.
  - rewrite bool_decide_eq_false_2 by done. simpl.
    apply IH. intros c' Hin. apply H. by right.
Qed.

Lemma admitted_discovered fs p re path k full :
  parts.RegExpFilter (parts.Config_ p) = Some re ->
  admitted fs p re path k full <-> discovered fs p path k full.
Proof.
  intros Hre. unfold admitted, discovered. simpl.
  destruct (parts.IsDir _).
  - split.
    + intros (fileNames & Hdir & Hk & -> & Hm & Hmatch).
      exists fileNames. repeat split; try done.
      apply filter_spec. split; [done|]. rewrite Hre. by intros ? [= <-].
    + intros (fileNames & Hdir & Hk & -> & Hpass).
      apply filter_spec in Hpass as [Hm Hmatch].
      exists fileNames. repeat split; try done; try apply Hm.
      by apply Hmatch.
  - split.
    + intros (-> & -> & Hm). repeat split. by apply filter_spec.
    + intros (-> & -> & Hpass). apply filter_spec in Hpass as [Hm _]. done.
Qed.

Lemma entry_base fs path k full :
  wellFormed fs -> entry fs path k full -> filepath.Base full = k.
Proof.
  intros Hwf. unfold entry. simpl. destruct (parts.IsDir _).
  - intros (fileNames & Hdir & Hk & ->). apply Base_Join.
    specialize (Hwf _ _ Hdir). rewrite Forall_forall in Hwf. by apply Hwf.
  - by intros (-> & ->).
Qed.

(** The map binds [k] to the candidate of the first path that yields
    one satisfying the conditions. *)
Lemma first_admitted_recorded fs p re found pre path post k full :
  parts.RegExpFilter (parts.Config_ p) = Some re ->
  parts.scanPaths fs p (parts.Paths p) ∅ = inr found ->
  parts.Paths p = pre ++ path :: post ->
  admitted fs p re path k full ->
  (forall path' full', path' ∈ pre -> ~ admitted fs p re path' k full') ->
  found !! k = Some full.
Proof.
  intros Hre Hscan Hpaths Hadm Hfirst.
  rewrite (scanPaths_lookup _ _ _ _ Hscan), Hpaths, bind_app, firstPass_app.
  rewrite firstPass_None_intro.
  - change ((path :: post) ≫= candidates fs p)
      with (candidates fs p path ++ (post ≫= candidates fs p)).
    apply firstPass_discovered. by apply (admitted_discovered fs p re).
  - intros c (path' & Hc & Hpath')%list_elem_of_bind Hname.
    destruct (cPass c) eqn:Hpass; [|done]. exfalso.
    apply (Hfirst path' (cPath c) Hpath').
    apply (admitted_discovered fs p re _ _ _ Hre). rewrite <-Hname.
    by apply candidate_discovered.
Qed.

(** C7 (amended). Without a limit, on a file system whose directory
    listings hold valid entry names:
    - the resolved list holds an entry with base name [k] exactly when
      some candidate with that base name meets both masks (its mode
      AND the permission mask is non-zero, its mode AND the type mask
      is non-zero) and, if a directory listed it, matches the
      configured pattern; a path given directly is not held against
      the pattern;
    - among the candidates with base name [k] that satisfy these
      conditions the one included is that of the earliest path: it is
      in the list, it is the only entry of the list with that base
      name, and every other candidate with that base name, whether or
      not it satisfies the conditions, is left out. *)
Theorem C7_filtering fs p re names :
  wellFormed fs ->
  parts.RegExpFilter (parts.Config_ p) = Some re ->
  parts.Readdirnames fs p 0 = Ret (names, None) ->
  forall k,
    ((exists q, q ∈ names /\ filepath.Base q = k) <->
     (exists path, path ∈ parts.Paths p /\
        let mode := (parts.StatMode fs path).1 in
        if parts.IsDir mode then
          exists fileNames,
            os.DirNames fs path = inr fileNames /\ k ∈ fileNames /\
            meetsMasks p (parts.StatMode fs (filepath.Join path k)).1 /\
            regexp.MatchString re k = true
        else k = filepath.Base path /\ meetsMasks p mode)) /\
    (forall pre path post full,
       parts.Paths p = pre ++ path :: post ->
       admitted fs p re path k full ->
       (forall path' full', path' ∈ pre -> ~ admitted fs p re path' k full') ->
       full ∈ names /\
       (forall q, q ∈ names -> filepath.Base q = k -> q = full) /\
       (forall path' full',
          path' ∈ parts.Paths p -> entry fs path' k full' ->
          full' <> full -> full' ∉ names)).
Proof.
  intros Hwf Hre Hret k. split.
  - by apply base_names_listed.
  - intros pre path post full Hpaths Hadm Hfirst.
    destruct (Readdirnames_Ret _ _ _ _ Hret) as (found & Hscan & _).
    pose proof (first_admitted_recorded _ _ _ _ _ _ _ _ _
                  Hre Hscan Hpaths Hadm Hfirst) as Hk.
    assert (Honly : forall q, q ∈ names -> filepath.Base q = k -> q = full).
    { intros q Hq Hbase.
      destruct (elem_of_names _ _ _ _ _ Hret Hq)
        as (found' & k' & Hscan' & Hk').
      pose proof (scanPaths_base _ _ _ _ _ Hwf Hscan' Hk') as Hbk.
      rewrite Hbase in Hbk. subst k'. congruence. }
    split; [by eapply names_of_lookup|]. split; [exact Honly|].
    intros path' full' _ Hentry Hne Hin. apply Hne, Honly; [done|].
    by eapply entry_base.
Qed.

(** ** The test tree *)

Lemma testdata_wellFormed : wellFormed testdata.fs.
Proof.
  intros dir names. simpl.
  repeat (destruct (String.eqb dir _);
          [intros [= <-]; repeat (constructor; [vm_compute; reflexivity|]);
           constructor|]).
  done.
Qed.

Lemma discovered_listed fs p A f fileNames :
  parts.IsDir (parts.StatMode fs A).1 = true ->
  os.DirNames fs A = inr fileNames -> f ∈ fileNames ->
  parts.filter p f (parts.StatMode fs (filepath.Join A f)).1
    (parts.RegExpFilter (parts.Config_ p)) = true ->
  discovered fs p A f (filepath.Join A f).
Proof.
  intros Hdir Hnames Hf Hpass. unfold discovered. simpl. rewrite Hdir.
  by exists fileNames.
Qed.

(** The second example of the package documentation. *)
Example Readdirnames_conf :
  parts.Readdirnames testdata.fs confParts 0 = Ret (confNames, None).
Proof. vm_compute. reflexivity. Qed.

Example Readdirnames_conf_reversed :
  parts.Readdirnames testdata.fs (withReverse confParts true) 0
  = Ret (rev confNames, None).
Proof. vm_compute. reflexivity. Qed.

Example Readdirnames_missing :
  parts.Readdirnames testdata.fs (parts.NewParts ["/notexist"] None) 0
  = Ret ([], Some (errorString
             "parts: stat /notexist: no such file or directory")).
Proof. vm_compute. reflexivity. Qed.

Lemma C8_no_duplicate_base_names_witness :
  NoDup (filepath.Base <$> confNames).
Proof.
  apply (C8_no_duplicate_base_names testdata.fs confParts 0 confNames
           testdata_wellFormed).
  vm_compute. reflexivity.
Defined.

Lemma C6_limit_witness :
  parts.Readdirnames testdata.fs confParts 3
  = Ret (["testdata/etc/10-both.conf"; "testdata/etc/10-only-etc.conf";
          "testdata/usr/lib/10-only-lib.conf"], None) /\
  parts.Readdirnames testdata.fs confParts 8 = Ret (confNames, None) /\
  parts.Readdirnames testdata.fs confParts 100 = Ret (confNames, None).
Proof.
  assert (H0 : parts.Readdirnames testdata.fs confParts 0
               = Ret (confNames, None)) by (vm_compute; reflexivity).
  split; [|split].
  - apply (C6_limit testdata.fs confParts confNames 3 H0). simpl. lia.
  - apply (C6_limit testdata.fs confParts confNames 8 H0). simpl. lia.
  - apply (C6_limit testdata.fs confParts confNames 100 H0). simpl. lia.
Defined.

Lemma C10_negative_limit_panics_witness :
  parts.Readdirnames testdata.fs confParts (-1)
  = Panic "slice bounds out of range".
Proof.
  apply (C10_negative_limit_panics testdata.fs confParts confNames (-1)).
  - vm_compute. reflexivity.
  - lia.
Defined.

Lemma C5_sorted_and_reversed_witness :
  ascending confNames /\
  parts.Readdirnames testdata.fs (withReverse confParts true) 0
  = Ret (rev confNames, None).
Proof.
  destruct (C5_sorted_and_reversed testdata.fs confParts testdata_wellFormed)
    as [Hsorted Hrev].
  split.
  - apply (Hsorted 0 confNames). vm_compute. reflexivity.
  - apply (Hrev confNames 0); [vm_compute; reflexivity|by left].
Defined.

(** With the limit [3] the two orders return the two ends of the list,
    not each other's reverse. *)
Lemma C5_counterexample :
  parts.Readdirnames testdata.fs confParts 3
  = Ret (["testdata/etc/10-both.conf"; "testdata/etc/10-only-etc.conf";
          "testdata/usr/lib/10-only-lib.conf"], None) /\
  parts.Readdirnames testdata.fs (withReverse confParts true) 3
  = Ret (["testdata/test.conf"; "testdata/usr/lib/nodigits.conf";
          "testdata/etc/30-symlink.conf"], None) /\
  ["testdata/test.conf"; "testdata/usr/lib/nodigits.conf";
   "testdata/etc/30-symlink.conf"]
  <> rev ["testdata/etc/10-both.conf"; "testdata/etc/10-only-etc.conf";
          "testdata/usr/lib/10-only-lib.conf"].
Proof.
  split; [vm_compute; reflexivity|].
  split; [vm_compute; reflexivity|]. simpl. discriminate.
Qed.

Lemma C1_earlier_path_wins_witness :
  (forall q, q ∈ overrideNames -> filepath.Base q = "10-both.conf" ->
     q = "testdata/etc/10-both.conf") /\
  ("testdata/usr/lib/10-both.conf" <> "testdata/etc/10-both.conf" ->
     "testdata/usr/lib/10-both.conf" ∉ overrideNames) /\
  (0 = 0 -> "testdata/etc/10-both.conf" ∈ overrideNames).
Proof.
  apply (C1_earlier_path_wins testdata.fs overrideParts
           "testdata/etc" "testdata/usr/lib" ["testdata/usr/lib"]
           "10-both.conf" _ _ 0 overrideNames testdata_wellFormed).
  - reflexivity.
  - by left.
  - apply (discovered_listed testdata.fs overrideParts "testdata/etc"
             "10-both.conf"
             ["10-both.conf"; "10-only-etc.conf"; "20-only-etc.conf";
              "30-symlink.conf"]);
      [vm_compute; reflexivity..| |vm_compute; reflexivity].
    by left.
  - apply (discovered_listed testdata.fs overrideParts "testdata/usr/lib"
             "10-both.conf"
             ["10-both.conf"; "10-executable.sh"; "10-only-lib.conf";
              "20-only-lib.conf"; "30-symlink.conf"; "40-noconf"; "adir";
              "nodigits.conf"]);
      [vm_compute; reflexivity..| |vm_compute; reflexivity].
    by left.
  - vm_compute. reflexivity.
Defined.

Lemma C7_filtering_witness :
  "testdata/etc/10-both.conf" ∈ confNames /\
  (forall q, q ∈ confNames -> filepath.Base q = "10-both.conf" ->
     q = "testdata/etc/10-both.conf") /\
  "testdata/usr/lib/10-both.conf" ∉ confNames.
Proof.
  assert (Hret : parts.Readdirnames testdata.fs confParts 0
                 = Ret (confNames, None)) by (vm_compute; reflexivity).
  destruct (C7_filtering testdata.fs confParts testdata.confSuffix confNames
              testdata_wellFormed eq_refl Hret "10-both.conf") as [_ Hfirst].
  assert (Hdir : forall dir,
            dir = "testdata/etc" \/ dir = "testdata/usr/lib" ->
            parts.IsDir (parts.StatMode testdata.fs dir).1 = true).
  { intros dir [->| ->]; vm_compute; reflexivity. }
  destruct (Hfirst ["testdata/test.conf"] "testdata/etc" ["testdata/usr/lib"]
              "testdata/etc/10-both.conf") as (Hin & Honly & Hout).
  - reflexivity.
  - unfold admitted. cbv zeta. rewrite Hdir by (by left).
    exists ["10-both.conf"; "10-only-etc.conf"; "20-only-etc.conf";
            "30-symlink.conf"].
    split; [vm_compute; reflexivity|]. split; [by left|].
    split; [vm_compute; reflexivity|].
    split; [split; vm_compute; discriminate|vm_compute; reflexivity].
  - intros path' full' ->%list_elem_of_singleton. unfold admitted. cbv zeta.
    assert (Hfile : parts.IsDir
              (parts.StatMode testdata.fs "testdata/test.conf").1 = false)
      by (vm_compute; reflexivity).
    rewrite Hfile. intros (Hk & _). vm_compute in Hk. discriminate.
  - split; [exact Hin|]. split; [exact Honly|].
    apply (Hout "testdata/usr/lib" "testdata/usr/lib/10-both.conf").
    + by right; right; left.
    + unfold entry. cbv zeta. rewrite Hdir by (by right).
      exists ["10-both.conf"; "10-executable.sh"; "10-only-lib.conf";
              "20-only-lib.conf"; "30-symlink.conf"; "40-noconf"; "adir";
              "nodigits.conf"].
      split; [vm_compute; reflexivity|]. split; [by left|].
      vm_compute. reflexivity.
    + discriminate.
Defined.

(** The entry [10-both.conf] of [testdata/usr/lib] meets both masks
    and the pattern, yet the resolved list does not hold it: the entry
    of [testdata/etc] took the base name first. *)
Lemma C7_counterexample :
  "testdata/usr/lib" ∈ parts.Paths overrideParts /\
  parts.IsDir (parts.StatMode testdata.fs "testdata/usr/lib").1 = true /\
  (exists fileNames,
     os.DirNames testdata.fs "testdata/usr/lib" = inr fileNames /\
     "10-both.conf" ∈ fileNames) /\
  filepath.Join "testdata/usr/lib" "10-both.conf"
  = "testdata/usr/lib/10-both.conf" /\
  meetsMasks overrideParts
    (parts.StatMode testdata.fs "testdata/usr/lib/10-both.conf").1 /\
  regexp.MatchString parts.DefaultRegExpFilter "10-both.conf" = true /\
  parts.Readdirnames testdata.fs overrideParts 0
  = Ret (overrideNames, None) /\
  "testdata/usr/lib/10-both.conf" ∉ overrideNames.
Proof.
  split; [by right; left|].
  split; [vm_compute; reflexivity|].
  split; [eexists; split; [vm_compute; reflexivity|by left]|].
  split; [vm_compute; reflexivity|].
  split; [split; vm_compute; discriminate|].
  split; [reflexivity|].
  split; [vm_compute; reflexivity|].
  apply (bool_decide_unpack _). vm_compute. exact I.
Qed.

(** ** File modes *)

Lemma StatMode_Perm fs name fi :
  os.Stat fs name = inr fi ->
  parts.StatMode fs name
  = (if os.IsRegular (os.Mode fi)
     then Z.lor (os.Mode fi) parts.ModeRegular else os.Mode fi, None) /\
  parts.Perm (parts.StatMode fs name).1 = Z.land (os.Mode fi) parts.ModePerm.
Proof.
  intros H. unfold parts.StatMode, parts.Perm. rewrite H. split; [done|].
  simpl. destruct (os.IsRegular (os.Mode fi)); [|done].
  rewrite Z.land_lor_distr_l.
  change (Z.land parts.ModeRegular parts.ModePerm) with 0.
  by rewrite Z.lor_0_r.
Qed.

Lemma LstatMode_Perm fs name fi :
  os.Lstat fs name = inr fi ->
  parts.Perm (parts.LstatMode fs name).1 = Z.land (os.Mode fi) parts.ModePerm.
Proof.
  intros H. unfold parts.LstatMode, parts.Perm. rewrite H. simpl.
  destruct (os.IsRegular (os.Mode fi)); [|done].
  rewrite Z.land_lor_distr_l.
  change (Z.land parts.ModeRegular parts.ModePerm) with 0.
  by rewrite Z.lor_0_r.
Qed.

(** For a regular file [StatMode] sets the regular bit and no other
    type bit of this package. *)
Lemma StatMode_regular_type (m : os.FileMode) :
  os.IsRegular m = true ->
  Z.land (Z.lor m parts.ModeRegular) parts.ModeType = parts.ModeRegular.
Proof.
  unfold os.IsRegular. intros H%Z.eqb_eq.
  rewrite Z.land_lor_distr_l.
  change (Z.land parts.ModeRegular parts.ModeType) with parts.ModeRegular.
  assert (Hsub : parts.ModeType = Z.land os.ModeType parts.ModeType)
    by reflexivity.
  rewrite Hsub, Z.land_assoc, H. reflexivity.
Qed.

(** Whatever the permissions of a regular file, [FileInfo.Mode] answers
    the bare regular bit. *)
Lemma FileInfo_Mode_regular (fi : os.FileInfo) :
  os.IsRegular (os.Mode fi) = true ->
  parts.Mode {| parts.embedded := fi |} = parts.ModeRegular /\
  parts.Perm (parts.Mode {| parts.embedded := fi |}) = 0.
Proof.
  unfold os.IsRegular, parts.Mode. simpl. intros ->. done.
Qed.

(** The bit this package takes for regular files is the bit [os] gives
    to irregular ones. *)
Remark ModeRegular_is_ModeIrregular : parts.ModeRegular = os.ModeIrregular.
Proof. reflexivity. Qed.

(** C9, at a regular file with permissions [0644] (420): the file
    [testdata/test.conf]. [FileInfo.Mode] returns [ModeRegular] alone,
    its permission bits are zero; [StatMode] on the same file keeps
    them. *)
Theorem C9_FileInfo_Mode_discards_permissions :
  exists fi,
    os.Stat testdata.fs "testdata/test.conf" = inr fi /\
    os.Mode fi = 420 /\
    parts.Mode {| parts.embedded := fi |} = parts.ModeRegular /\
    parts.Perm (parts.Mode {| parts.embedded := fi |}) = 0 /\
    parts.StatMode testdata.fs "testdata/test.conf"
    = (Z.lor parts.ModeRegular 420, None) /\
    parts.Perm (parts.StatMode testdata.fs "testdata/test.conf").1 = 420.
Proof.
  eexists. split; [vm_compute; reflexivity|].
  repeat split; vm_compute; reflexivity.
Qed.

(** ** Closing *)

Lemma closeFiles_nil_error fs files table :
  (parts.closeFiles fs files None table).1 = None.
Proof.
  revert table. induction files as [|[fd|] files IH]; intros table; simpl;
    [done| |done].
  destruct (os.Close fs fd table) as [tmpErr table'].
  rewrite andb_false_r. apply IH.
Qed.

(** [Close] never reports an error: [err] starts as nil and is only
    assigned when it is not nil. *)
Lemma Close_returns_nil fs p table : (parts.Close fs p table).1.1 = None.
Proof.
  unfold parts.Close. destruct (parts.readState_ p) as [rs|]; [|done].
  pose proof (closeFiles_nil_error fs (parts.Files rs) table) as H.
  destruct (parts.closeFiles _ _ _ _) as [err table']. done.
Qed.

Lemma Close_resets_readState fs p table :
  parts.readState_ (parts.Close fs p table).1.2 = None.
Proof.
  unfold parts.Close. destruct (parts.readState_ p) as [rs|] eqn:E; [|done].
  by destruct (parts.closeFiles _ _ _ _).
Qed.

Lemma Close_without_readState fs p table :
  parts.readState_ p = None -> parts.Close fs p table = (None, p, table).
Proof. unfold parts.Close. by intros ->. Qed.

Lemma os_Close_length fs fd table :
  length (os.Close fs fd table).2 = length table.
Proof.
  unfold os.Close. destruct (table !! fd) as [f|]; [|done].
  destruct (os.closed f); [done|]. simpl. by rewrite length_insert.
Qed.

Lemma os_Close_closed fs fd table i f' :
  (os.Close fs fd table).2 !! i = Some f' ->
  i = fd \/ (exists f, table !! i = Some f /\ os.closed f = true) ->
  os.closed f' = true.
Proof.
  unfold os.Close. destruct (table !! fd) as [f|] eqn:E.
  - destruct (os.closed f) eqn:Ec; simpl.
    + intros Hi [->|(f0 & Hf0 & Hc)]; congruence.
    + destruct (decide (i = fd)) as [->|Hne].
      * rewrite list_lookup_insert_eq by (by eapply lookup_lt_Some).
        by intros [= <-].
      * rewrite list_lookup_insert_ne by done.
        intros Hi [->|(f0 & Hf0 & Hc)]; congruence.
  - simpl. intros Hi [->|(f0 & Hf0 & Hc)]; congruence.
Qed.

Lemma closeFiles_closed fs files err table i f' :
  (parts.closeFiles fs files err table).2 !! i = Some f' ->
  Some i ∈ files \/ (exists f, table !! i = Some f /\ os.closed f = true) ->
  os.closed f' = true.
Proof.
  revert err table. induction files as [|[fd|] files IH]; intros err table;
    simpl.
  - intros Hi [?%elem_of_nil|(f & Hf & Hc)]; [done|congruence].
  - pose proof (os_Close_closed fs fd table i) as Hone.
    pose proof (os_Close_length fs fd table) as Hlen.
    destruct (os.Close fs fd table) as [tmpErr table']. simpl in *.
    intros Hi Hor. eapply IH; [exact Hi|].
    destruct (decide (Some i ∈ files)) as [|Hnot]; [by left|]. right.
    assert (Hlt : (i < length table')%nat).
    { destruct (decide (i < length table')%nat) as [|Hge]; [done|].
      exfalso. clear -Hi Hge IH.
      assert (forall fs files err table,
        length (parts.closeFiles fs files err table).2 = length table)
        as Hl.
      { clear. intros fs files. induction files as [|[fd|] files IH];
          intros err table; simpl; [done| |done].
        pose proof (os_Close_length fs fd table) as Hlen.
        destruct (os.Close fs fd table) as [tmpErr table']. simpl in *.
        by rewrite IH. }
      apply lookup_lt_Some in Hi. rewrite Hl in Hi. lia. }
    destruct (lookup_lt_is_Some_2 _ _ Hlt) as [f1 Hf1].
    exists f1. split; [done|]. apply (Hone f1 Hf1).
    destruct Hor as [[[= ->]|?]%elem_of_cons|?]; [by left|done|by right].
  - intros Hi [[?|?]%elem_of_cons|?]; [done|..]; eapply IH; eauto.
Qed.

(** Every handle of the read state is closed once [Close] returns,
    whether or not its release reported an error. *)
Lemma Close_releases_every_handle fs p rs table fd f' :
  parts.readState_ p = Some rs -> Some fd ∈ parts.Files rs ->
  (parts.Close fs p table).2 !! fd = Some f' ->
  os.closed f' = true.
Proof.
  unfold parts.Close. intros -> Hfd.
  pose proof (closeFiles_closed fs (parts.Files rs) None table fd f') as H.
  destruct (parts.closeFiles _ _ _ _) as [err table']. simpl in *.
  intros Hi. apply H; [done|by left].
Qed.

(** C3, at the session reading the [.conf] files of the test tree
    when every release fails: the release of the first handle reports
    an error, every handle ends up closed, the read state is reset,
    a second [Close] changes nothing, and both calls return nil. *)
Theorem C3_Close_reports_no_release_error :
  let '(_, p, table) := parts.Read closeFailFs 8 confParts [] in
  (os.Close closeFailFs 0 table).1
  = Some (PathError "close" "testdata/etc/10-both.conf" "input/output error")
  /\
  let '(err, p', table') := parts.Close closeFailFs p table in
  err = None /\
  os.closed <$> table' = [true; true; true; true; true; true; true; true] /\
  parts.readState_ p' = None /\
  parts.Close closeFailFs p' table' = (None, p', table').
Proof. vm_compute. repeat split. Qed.

(** ** Reading *)

Lemma openFiles_error fs names files table name e :
  name ∈ names -> os.OpenErr fs name = Some e ->
  exists e' files' table',
    parts.openFiles fs names files table = (Some e', files', table').
Proof.
  intros Hin He. revert files table.
  induction names as [|n names IH]; intros files table;
    [by apply elem_of_nil in Hin|].
  simpl. unfold os.Open.
  destruct (os.OpenErr fs n) as [e0|] eqn:En; [by eauto|].
  apply elem_of_cons in Hin as [->|Hin]; [congruence|]. by apply IH.
Qed.

(** A failed resolution leaves the session as it was. *)
Lemma Read_resolution_failure fs p table k names e :
  parts.readState_ p = None ->
  parts.Readdirnames fs p 0 = Ret (names, Some e) ->
  parts.Read fs k p table = (Ret ([], Some e), p, table).
Proof. unfold parts.Read. by intros -> ->. Qed.

(** C4, the open that fails: the first [Read] returns the error and
    leaves a read state behind whose [Reader] was never assigned; the
    next [Read] does not start over, it calls [Read] on that nil
    reader and panics. *)
Theorem C4_failed_open_keeps_half_built_state fs p table k names name e :
  parts.readState_ p = None ->
  parts.Readdirnames fs p 0 = Ret (names, None) ->
  name ∈ names -> os.OpenErr fs name = Some e ->
  exists e' files table',
    let p' := parts.setReadState p
                (Some {| parts.Files := files; parts.Reader := None |}) in
    parts.Read fs k p table = (Ret ([], Some e'), p', table') /\
    parts.Read fs k p' table'
    = (Panic "nil pointer dereference", p', table').
Proof.
  intros Hstate Hret Hin He.
  destruct (openFiles_error fs names [] table name e Hin He)
    as (e' & files & table' & Hopen).
  exists e', files, table'. unfold parts.Read.
  rewrite Hstate, Hret, Hopen. done.
Qed.

Lemma C4_failed_open_keeps_half_built_state_witness :
  exists e' files table',
    let p' := parts.setReadState confParts
                (Some {| parts.Files := files; parts.Reader := None |}) in
    parts.Read deniedFs 8 confParts [] = (Ret ([], Some e'), p', table') /\
    parts.Read deniedFs 8 p' table'
    = (Panic "nil pointer dereference", p', table').
Proof.
  apply (C4_failed_open_keeps_half_built_state deniedFs confParts [] 8
           confNames "testdata/etc/10-only-etc.conf"
           (PathError "open" "testdata/etc/10-only-etc.conf"
              "permission denied")).
  - reflexivity.
  - vm_compute. reflexivity.
  - by right; left.
  - vm_compute. reflexivity.
Defined.

Lemma openFiles_ok fs names files table :
  (forall name, name ∈ names -> os.OpenErr fs name = None) ->
  parts.openFiles fs names files table
  = (None, files ++ (Some <$> seq (length table) (length names)),
     table ++ (newFile fs <$> names)).
Proof.
  revert files table. induction names as [|n names IH]; intros files table H.
  - simpl. by rewrite !app_nil_r.
  - simpl. unfold os.Open. rewrite (H n) by (by left).
    rewrite IH by (intros name Hin; apply H; by right).
    rewrite length_app, Nat.add_1_r, <-!app_assoc. done.
Qed.

Lemma streams_opened fs names table :
  (forall name, name ∈ names -> os.ReadErr fs name = None) ->
  streams fs (table ++ (newFile fs <$> names))
    (Some <$> seq (length table) (length names))
    (os.Contents fs <$> names).
Proof.
  intros H. split.
  - apply (NoDup_fmap_2 Some), NoDup_seq.
  - apply Forall2_same_length_lookup. split.
    + by rewrite !length_fmap, length_seq.
    + intros i r c Hr Hc.
      apply list_lookup_fmap_Some in Hr as (fd & -> & Hfd).
      apply list_lookup_fmap_Some in Hc as (name & -> & Hname).
      apply lookup_seq in Hfd as [-> Hlt].
      exists (length table + i)%nat, (newFile fs name).
      split; [done|]. split.
      * rewrite lookup_app_r by lia.
        replace (length table + i - length table)%nat with i by lia.
        by rewrite list_lookup_fmap, Hname.
      * repeat split. simpl. apply H. by eapply list_elem_of_lookup_2.
Qed.

(** Writing to one handle leaves the others as they were. *)
Lemma handles_insert_other fs (table : list os.File) (fd : nat) f'
    (rs : list (option nat)) (cs : list (list Byte.byte)) :
  Some fd ∉ rs ->
  Forall2 (fun r c => exists fd f,
             r = Some fd /\ table !! fd = Some f /\ os.unread f = c /\
             os.closed f = false /\ os.ReadErr fs (os.path f) = None)
    rs cs ->
  Forall2 (fun r c => exists fd0 f,
             r = Some fd0 /\ <[fd := f']> table !! fd0 = Some f /\
             os.unread f = c /\
             os.closed f = false /\ os.ReadErr fs (os.path f) = None)
    rs cs.
Proof.
  intros Hnotin Hall. induction Hall as [|r c rs cs Hr Hall IH];
    [constructor|].
  apply not_elem_of_cons in Hnotin as [Hne Hnotin].
  constructor; [|by apply IH].
  destruct Hr as (fd' & f0 & -> & Hfd' & ?).
  exists fd', f0. split; [done|]. split; [|done].
  rewrite list_lookup_insert_ne; [done|]. by intros ->.
Qed.

(** One call of the composed reader: either every file is exhausted
    and it answers [EOF], or it hands out a chunk that is a prefix of
    what is left, non-empty when the buffer is. *)
Lemma readLoop_streams fs k table rs cs :
  streams fs table rs cs ->
  (concat cs = [] /\
   io.readLoop fs rs k table = (Ret ([], Some EOF), [], table)) \/
  (exists bs rs' table' cs',
     ((0 < k)%nat -> bs <> []) /\
     io.readLoop fs rs k table = (Ret (bs, None), rs', table') /\
     streams fs table' rs' cs' /\ concat cs = bs ++ concat cs').
Proof.
  intros [Hnd Hall]. induction Hall as [|r c rs cs Hr Hall IH].
  - by left.
  - assert (Hs : streams fs table (r :: rs) (c :: cs))
      by (split; [done|by constructor]).
    destruct Hr as (fd & f & -> & Hfd & Hc & Hopen & Herr).
    apply NoDup_cons in Hnd as [Hnotin Hnd].
    simpl. unfold os.Read. rewrite Hfd, Hopen.
    destruct (decide (k = 0%nat)) as [->|Hk].
    { right. exists [], (Some fd :: rs), table, (c :: cs).
      split; [lia|]. split; [done|]. split; [exact Hs|done]. }
    rewrite Hc. destruct c as [|b c].
    + rewrite Herr. simpl. exact (IH Hnd).
    + right.
      set (f' := {| os.path := os.path f; os.unread := drop k (b :: c);
                    os.closed := false |}).
      simpl.
      exists (take k (b :: c)), (Some fd :: rs), (<[fd := f']> table),
        (drop k (b :: c) :: cs).
      split; [by destruct k; [lia|]|]. split; [done|]. split.
      * split; [by apply NoDup_cons|]. constructor.
        -- exists fd, f'. split; [done|]. split; [|done].
           apply list_lookup_insert_eq. by eapply lookup_lt_Some.
        -- by apply handles_insert_other.
      * simpl. by rewrite app_assoc, take_drop.
Qed.

(** [Read] on a session whose reader is in place. *)
Lemma Read_with_reader fs k p files rs table :
  parts.Read fs k
    (parts.setReadState p
       (Some {| parts.Files := files;
                parts.Reader := Some {| io.readers := rs |} |}))
    table
  = let '(res, rs', table') := io.readLoop fs rs k table in
    (res,
     parts.setReadState p
       (Some {| parts.Files := files;
                parts.Reader := Some {| io.readers := rs' |} |}),
     table').
Proof.
  unfold parts.Read, parts.readReader, io.Read. simpl.
  by destruct (io.readLoop fs rs k table) as [[res rs'] table'].
Qed.

(** Whatever the buffer and the number of rounds, the loop of the
    caller can only end on [EOF] with everything that was left. *)
Lemma readAll_streams_partial fs k p files fuel :
  forall table rs cs acc,
    streams fs table rs cs ->
    let r := readAll fuel fs k
               (parts.setReadState p
                  (Some {| parts.Files := files;
                           parts.Reader := Some {| io.readers := rs |} |}))
               table acc in
    r = None \/ r = Some (Ret (acc ++ concat cs, EOF)).
Proof.
  induction fuel as [|fuel IH]; intros table rs cs acc Hs; [by left|].
  simpl. rewrite Read_with_reader.
  destruct (readLoop_streams fs k table rs cs Hs)
    as [[Hnil ->]|(bs & rs' & table' & cs' & Hbs & -> & Hs' & Hcat)].
  - right. by rewrite Hnil.
  - rewrite Hcat, app_assoc. by apply IH.
Qed.

(** With a non-empty buffer and more rounds than bytes left, it does
    end. *)
Lemma readAll_streams fs k p files fuel :
  forall table rs cs acc,
    (0 < k)%nat -> streams fs table rs cs ->
    (length (concat cs) < fuel)%nat ->
    readAll fuel fs k
      (parts.setReadState p
         (Some {| parts.Files := files;
                  parts.Reader := Some {| io.readers := rs |} |}))
      table acc
    = Some (Ret (acc ++ concat cs, EOF)).
Proof.
  induction fuel as [|fuel IH]; intros table rs cs acc Hk Hs Hlen; [lia|].
  simpl. rewrite Read_with_reader.
  destruct (readLoop_streams fs k table rs cs Hs)
    as [[Hnil ->]|(bs & rs' & table' & cs' & Hbs & -> & Hs' & Hcat)].
  - by rewrite Hnil.
  - rewrite Hcat, app_assoc. apply IH; [done..|].
    rewrite Hcat, length_app in Hlen. specialize (Hbs Hk).
    destruct bs; [done|]. simpl in Hlen. lia.
Qed.

(** C2. A session without read state whose resolution succeeds and
    whose resolved files open and read without I/O error. Repeated
    calls of [Read] can end in one way only: on [io.EOF], the bytes
    handed out being the contents of the files returned by
    [Readdirnames(0)], in that order, with nothing between them. With
    a non-empty buffer they do end, after at most one call per byte
    and one more. *)
Theorem C2_stream_is_concatenation fs p table k fuel names :
  parts.readState_ p = None ->
  parts.Readdirnames fs p 0 = Ret (names, None) ->
  (forall name, name ∈ names ->
     os.OpenErr fs name = None /\ os.ReadErr fs name = None) ->
  let stream := concat (os.Contents fs <$> names) in
  (readAll fuel fs k p table [] = None \/
   readAll fuel fs k p table [] = Some (Ret (stream, EOF))) /\
  ((0 < k)%nat -> (length stream < fuel)%nat ->
   readAll fuel fs k p table [] = Some (Ret (stream, EOF))).
Proof.
  intros Hstate Hret Hfiles stream.
  set (files := Some <$> seq (length table) (length names)).
  set (p1 := parts.setReadState p
               (Some {| parts.Files := files;
                        parts.Reader := Some {| io.readers := files |} |})).
  set (table1 := table ++ (newFile fs <$> names)).
  assert (Hfirst : parts.Read fs k p table = parts.Read fs k p1 table1).
  { unfold parts.Read at 1. rewrite Hstate, Hret.
    rewrite openFiles_ok by (intros name Hin; by apply Hfiles). done. }
  assert (Hall : readAll fuel fs k p table [] = readAll fuel fs k p1 table1 []).
  { destruct fuel as [|fuel]; [done|]. simpl. by rewrite Hfirst. }
  assert (Hs : streams fs table1 files (os.Contents fs <$> names)).
  { apply streams_opened. intros name Hin. by apply Hfiles. }
  rewrite Hall. split.
  - exact (readAll_streams_partial fs k p files fuel table1 files _ [] Hs).
  - intros Hk Hfuel.
    exact (readAll_streams fs k p files fuel table1 files _ [] Hk Hs Hfuel).
Qed.

Lemma C2_stream_is_concatenation_witness :
  readAll 200 testdata.fs 8 confParts [] []
  = Some (Ret (concat (os.Contents testdata.fs <$> confNames), EOF)).
Proof.
  apply (C2_stream_is_concatenation testdata.fs confParts [] 8 200 confNames).
  - reflexivity.
  - vm_compute. reflexivity.
  - intros name Hin. split; [|reflexivity].
    repeat (apply elem_of_cons in Hin as [->|Hin]; [vm_compute; reflexivity|]).
    by apply elem_of_nil in Hin.
  - lia.
  - vm_compute. lia.
Defined.

(** The stream over the [.conf] files of the test tree is the text the
    package documentation prints. *)
Example Read_conf_contents :
  readAll 200 testdata.fs 8 confParts [] []
  = Some (Ret (String.list_byte_of_string
        ("10-both.conf" +:+ String.String "010"
         ("10-only-etc.conf" +:+ String.String "010"
         ("10-only-lib.conf" +:+ String.String "010"
         ("20-only-etc.conf" +:+ String.String "010"
         ("20-only-lib.conf" +:+ String.String "010"
         ("30-symlink.conf" +:+ String.String "010"
         ("nodigits.conf" +:+ String.String "010"
         ("test.conf" +:+ String.String "010" "")))))))), EOF)).
Proof. vm_compute. reflexivity. Qed.

(** An I/O failure ends the loop with its own error, not with
    [io.EOF]. *)
Example Read_failure_is_not_EOF :
  exists bs,
    readAll 200 readFailFs 8 confParts [] []
    = Some (Ret (bs, PathError "read" "testdata/test.conf"
                       "input/output error")).
Proof. eexists. vm_compute. reflexivity. Qed.

(** * Further properties *)

(** ** Resolution: errors, bounds, provenance *)

Lemma scanDir_result fs p path fileNames found :
  parts.scanDir fs p path fileNames found
  = match scanDirErr fs path fileNames with
    | Some err => inl err
    | None => inr (foldl record found (dirCandidate fs p path <$> fileNames))
    end.
Proof.
  revert found. induction fileNames as [|f fileNames IH]; intros found;
    simpl; [done|].
  unfold record at 2. simpl.
  destruct (parts.StatMode fs (filepath.Join path f)) as [mode [err|]];
    simpl; [done|].
  destruct (found !! f); [by rewrite IH|].
  destruct (parts.filter p f mode _); by rewrite IH.
Qed.

Lemma scanPaths_result fs p paths found :
  parts.scanPaths fs p paths found
  = match scanPathsErr fs paths with
    | Some err => inl err
    | None => inr (foldl record found (paths ≫= candidates fs p))
    end.
Proof.
  revert found. induction paths as [|path paths IH]; intros found;
    simpl; [done|].
  unfold candidates.
  destruct (parts.StatMode fs path) as [mode [err|]]; [done|]. simpl.
  destruct (parts.IsDir mode).
  - destruct (os.OpenErr fs path); [done|].
    destruct (os.DirNames fs path) as [err|fileNames]; [done|].
    rewrite scanDir_result.
    destruct (scanDirErr fs path fileNames); [done|].
    by rewrite IH, foldl_app.
  - simpl. unfold record at 2. simpl.
    destruct (found !! filepath.Base path); [by rewrite IH|].
    destruct (parts.filter p (filepath.Base path) mode None); by rewrite IH.
Qed.

Lemma scanDirErr_Errorf fs path fileNames err :
  scanDirErr fs path fileNames = Some err -> exists e, err = parts.Errorf e.
Proof.
  induction fileNames as [|f fileNames IH]; simpl; [done|].
  destruct ((parts.StatMode fs (filepath.Join path f)).2) as [e|]; [|done].
  intros [= <-]. by exists e.
Qed.

Lemma scanPathsErr_Errorf fs paths err :
  scanPathsErr fs paths = Some err -> exists e, err = parts.Errorf e.
Proof.
  induction paths as [|path paths IH]; simpl; [done|].
  destruct (parts.StatMode fs path) as [mode [e|]];
    [intros [= <-]; by exists e|].
  destruct (parts.IsDir mode); [|done].
  destruct (os.OpenErr fs path) as [e|]; [intros [= <-]; by exists e|].
  destruct (os.DirNames fs path) as [e|fileNames];
    [intros [= <-]; by exists e|].
  destruct (scanDirErr fs path fileNames) as [e|] eqn:E; [|done].
  intros [= <-]. by eapply scanDirErr_Errorf.
Qed.

Lemma scanPathsErr_app fs l1 l2 :
  scanPathsErr fs (l1 ++ l2)
  = match scanPathsErr fs l1 with
    | Some err => Some err
    | None => scanPathsErr fs l2
    end.
Proof.
  induction l1 as [|path l1 IH]; simpl; [done|].
  destruct (parts.StatMode fs path) as [mode [e|]]; [done|].
  destruct (parts.IsDir mode); [|done].
  destruct (os.OpenErr fs path); [done|].
  destruct (os.DirNames fs path) as [e|fileNames]; [done|].
  by destruct (scanDirErr fs path fileNames).
Qed.

Lemma scanPathsErr_stat_failure fs paths path e :
  path ∈ paths -> os.Stat fs path = inl e ->
  is_Some (scanPathsErr fs paths).
Proof.
  intros Hin Hstat. induction paths as [|path' paths IH];
    [by apply elem_of_nil in Hin|].
  simpl. destruct (parts.StatMode fs path') as [mode [e'|]] eqn:E; [done|].
  assert (Hne : path <> path').
  { intros ->. unfold parts.StatMode in E. rewrite Hstat in E. done. }
  apply elem_of_cons in Hin as [?|Hin]; [done|].
  destruct (parts.IsDir mode); [|by apply IH].
  destruct (os.OpenErr fs path'); [done|].
  destruct (os.DirNames fs path'); [done|].
  destruct (scanDirErr fs path' _); [done|]. by apply IH.
Qed.

Lemma Readdirnames_error fs p err n :
  scanPathsErr fs (parts.Paths p) = Some err ->
  parts.Readdirnames fs p n = Ret ([], Some err).
Proof.
  intros H. unfold parts.Readdirnames. by rewrite scanPaths_result, H.
Qed.

(** X1. One path of the list that cannot be examined fails the whole
    resolution: whatever the other paths, the configuration and the
    limit (a negative one included), the call returns the empty list
    and an error whose text starts with [parts: ]. *)
Theorem Readdirnames_stat_failure fs p path e :
  path ∈ parts.Paths p -> os.Stat fs path = inl e ->
  exists e0, forall n,
    parts.Readdirnames fs p n
    = Ret ([], Some (errorString ("parts: " +:+ Error e0))).
Proof.
  intros Hin Hstat.
  destruct (scanPathsErr_stat_failure fs _ path e Hin Hstat) as [err Herr].
  destruct (scanPathsErr_Errorf _ _ _ Herr) as [e0 ->].
  exists e0. intros n. by apply Readdirnames_error.
Qed.

Lemma Readdirnames_stat_failure_witness :
  exists e0, forall n,
    parts.Readdirnames testdata.fs
      (parts.NewParts ["testdata/etc"; "/notexist"; "testdata/usr/lib"] None) n
    = Ret ([], Some (errorString ("parts: " +:+ Error e0))).
Proof.
  apply (Readdirnames_stat_failure testdata.fs
           (parts.NewParts ["testdata/etc"; "/notexist"; "testdata/usr/lib"]
              None)
           "/notexist" (testdata.noEnt "stat" "/notexist")).
  - by right; left.
  - reflexivity.
Defined.

(** X2. Everything a resolution returns was found one level deep: each
    returned path is a path of the list that is not a directory, or
    the join of a directory of the list with a name of its listing,
    and it passed the filter that applies to it. *)
Theorem Readdirnames_sound fs p n names q :
  parts.Readdirnames fs p n = Ret (names, None) -> q ∈ names ->
  exists path f, path ∈ parts.Paths p /\ discovered fs p path f q.
Proof.
  intros Hret Hq.
  destruct (elem_of_names _ _ _ _ _ Hret Hq) as (found & k & Hscan & Hk).
  rewrite (scanPaths_lookup _ _ _ _ Hscan) in Hk.
  apply firstPass_Some in Hk as (c & Hc & <- & <- & Hpass).
  apply list_elem_of_bind in Hc as (path & Hc & Hpath).
  exists path, (cName c). split; [done|]. by apply candidate_discovered.
Qed.

Lemma Readdirnames_sound_witness :
  exists path f,
    path ∈ parts.Paths confParts /\
    discovered testdata.fs confParts path f "testdata/usr/lib/nodigits.conf".
Proof.
  apply (Readdirnames_sound testdata.fs confParts 0 confNames
           "testdata/usr/lib/nodigits.conf").
  - vm_compute. reflexivity.
  - apply (bool_decide_unpack _). vm_compute. exact I.
Defined.

(** X3. A positive limit bounds the length of the list returned. *)
Theorem Readdirnames_length_bound fs p n names :
  parts.Readdirnames fs p n = Ret (names, None) -> 0 < n ->
  Z.of_nat (length names) <= n.
Proof.
  intros (found & _ & Hshape)%Readdirnames_Ret Hn. simpl in Hshape.
  destruct Hshape as [[-> [->|Hlen]]|[Hlt ->]]; [lia|done|].
  rewrite length_take. lia.
Qed.

Lemma Readdirnames_length_bound_witness :
  Z.of_nat (length ["testdata/etc/10-both.conf";
                    "testdata/etc/10-only-etc.conf";
                    "testdata/usr/lib/10-only-lib.conf"]) <= 3.
Proof.
  apply (Readdirnames_length_bound testdata.fs confParts 3).
  - vm_compute. reflexivity.
  - lia.
Defined.

(** X4. A configuration whose permission mask or type mask is zero
    (the zero value of [Config] is one) lists nothing: a resolution
    that succeeds returns the empty list. *)
Theorem zero_mask_lists_nothing fs p n names :
  parts.ModePermFilter (parts.Config_ p) = 0 \/
  parts.ModeTypeFilter (parts.Config_ p) = 0 ->
  parts.Readdirnames fs p n = Ret (names, None) ->
  names = [].
Proof.
  intros Hzero Hret. destruct names as [|q names]; [done|]. exfalso.
  assert (Hq : q ∈ q :: names) by (by left).
  destruct (elem_of_names _ _ _ _ _ Hret Hq) as (found & k & Hscan & Hk).
  rewrite (scanPaths_lookup _ _ _ _ Hscan) in Hk.
  apply firstPass_Some in Hk as (c & Hc & _ & _ & Hpass).
  apply list_elem_of_bind in Hc as (path & Hc & _).
  pose proof (candidate_discovered _ _ _ _ Hc Hpass) as Hd.
  unfold discovered in Hd. simpl in Hd.
  assert (Hmasks : exists mode, meetsMasks p mode).
  { destruct (parts.IsDir _).
    - destruct Hd as (? & _ & _ & _ & [Hm _]%filter_spec). eauto.
    - destruct Hd as (_ & _ & [Hm _]%filter_spec). eauto. }
  destruct Hmasks as [mode [Hperm Htype]].
  destruct Hzero as [Hz|Hz]; rewrite Hz, Z.land_0_r in *; done.
Qed.

Lemma zero_mask_lists_nothing_witness :
  ([] : list string) = [].
Proof.
  apply (zero_mask_lists_nothing testdata.fs
           (parts.NewParts testdata.testDataPaths
              (Some {| parts.Reverse := false;
                       parts.ModeTypeFilter := 0;
                       parts.ModePermFilter := 0;
                       parts.RegExpFilter := None |})) 0).
  - by left.
  - vm_compute. reflexivity.
Defined.

(** ** Resolution: what the result depends on *)

(** Going over candidates already seen records nothing new. *)
Lemma foldl_record_again found cs cs' :
  cs' ⊆ cs ->
  foldl record (foldl record found cs) cs' = foldl record found cs.
Proof.
  intros Hsub. apply map_eq. intros k.
  rewrite <-foldl_app, !lookup_foldl_record, firstPass_app.
  destruct (found !! k); [done|].
  destruct (firstPass k cs) eqn:E; [done|].
  apply firstPass_None_intro. intros c Hc. apply (firstPass_None _ _ E).
  by apply Hsub.
Qed.

Lemma scanPathsErr_member fs paths A :
  scanPathsErr fs paths = None -> A ∈ paths -> scanPathsErr fs [A] = None.
Proof.
  induction paths as [|path paths IH]; intros Herr Hin;
    [by apply elem_of_nil in Hin|].
  apply elem_of_cons in Hin as [->|Hin].
  - simpl in *.
    destruct (parts.StatMode fs path) as [mode [e|]]; [done|].
    destruct (parts.IsDir mode); [|done].
    destruct (os.OpenErr fs path); [done|].
    destruct (os.DirNames fs path) as [e|fileNames]; [done|].
    by destruct (scanDirErr fs path fileNames).
  - apply IH; [|done]. simpl in Herr.
    destruct (parts.StatMode fs path) as [mode [e|]]; [done|].
    destruct (parts.IsDir mode); [|done].
    destruct (os.OpenErr fs path); [done|].
    destruct (os.DirNames fs path) as [e|fileNames]; [done|].
    by destruct (scanDirErr fs path fileNames).
Qed.

(** X5. Naming a path a second time changes nothing: with [A] already
    in the list, appending [A] gives the same outcome for every limit,
    error and panic included. *)
Theorem Readdirnames_repeated_path fs p paths A n :
  A ∈ paths ->
  parts.Readdirnames fs (withPaths p (paths ++ [A])) n
  = parts.Readdirnames fs (withPaths p paths) n.
Proof.
  intros Hin. unfold parts.Readdirnames.
  rewrite !scanPaths_result.
  change (parts.Paths (withPaths p ?l)) with l.
  change (parts.Reverse (parts.Config_ (withPaths p ?l)))
    with (parts.Reverse (parts.Config_ p)).
  rewrite scanPathsErr_app.
  destruct (scanPathsErr fs paths) as [err|] eqn:E; [done|].
  rewrite (scanPathsErr_member fs paths A E Hin).
  assert (Hsame :
    foldl record ∅ ((paths ++ [A]) ≫= candidates fs (withPaths p (paths ++ [A])))
    = foldl record ∅ (paths ≫= candidates fs (withPaths p paths))).
  { change (candidates fs (withPaths p ?l)) with (candidates fs p).
    rewrite bind_app, foldl_app. apply foldl_record_again.
    intros c Hc. apply list_elem_of_bind in Hc as (path & Hc & Hpath).
    apply list_elem_of_singleton in Hpath as ->.
    apply list_elem_of_bind. by exists A. }
  by rewrite Hsame.
Qed.

Lemma Readdirnames_repeated_path_witness :
  parts.Readdirnames testdata.fs
    (withPaths confParts (testdata.testDataPaths ++ ["testdata/etc"])) 0
  = parts.Readdirnames testdata.fs
      (withPaths confParts testdata.testDataPaths) 0.
Proof.
  apply (Readdirnames_repeated_path testdata.fs confParts
           testdata.testDataPaths "testdata/etc" 0).
  by right; left.
Defined.

Lemma filter_ext p p' name mode regExp :
  parts.Config_ p = parts.Config_ p' ->
  parts.filter p name mode regExp = parts.filter p' name mode regExp.
Proof. unfold parts.filter. by intros ->. Qed.

Lemma candidates_ext fs p p' path :
  parts.Config_ p = parts.Config_ p' ->
  candidates fs p path = candidates fs p' path.
Proof.
  intros Hc. unfold candidates, dirCandidate.
  rewrite (filter_ext p p' _ _ None Hc).
  destruct (parts.IsDir _); [|done].
  destruct (os.DirNames fs path) as [e|fileNames]; [done|].
  apply list_fmap_ext. intros i f _. rewrite Hc.
  by rewrite (filter_ext p p' _ _ _ Hc).
Qed.

Lemma all_candidates_ext fs p p' (l : list string) :
  parts.Config_ p = parts.Config_ p' ->
  l ≫= candidates fs p = l ≫= candidates fs p'.
Proof.
  intros Hc. induction l as [|path l IH]; [done|].
  change (candidates fs p path ++ (l ≫= candidates fs p)
          = candidates fs p' path ++ (l ≫= candidates fs p')).
  by rewrite IH, (candidates_ext fs p p' path Hc).
Qed.

(** The outcome of a resolution is settled by the paths and the
    configuration; the read state plays no part. *)
Lemma Readdirnames_ext fs p p' n :
  parts.Paths p = parts.Paths p' -> parts.Config_ p = parts.Config_ p' ->
  parts.Readdirnames fs p n = parts.Readdirnames fs p' n.
Proof.
  intros Hp Hc. unfold parts.Readdirnames.
  rewrite !scanPaths_result, Hp, Hc.
  destruct (scanPathsErr fs (parts.Paths p')); [done|].
  by rewrite (all_candidates_ext fs p p' _ Hc).
Qed.

(** ** Reading: bounds and the end of the stream *)

Lemma os_Read_bound fs fd k table :
  (length (os.Read fs fd k table).1.1 <= k)%nat.
Proof.
  unfold os.Read. destruct (table !! fd) as [f|]; simpl; [|lia].
  destruct (os.closed f); simpl; [lia|].
  destruct (decide (k = 0%nat)); simpl; [lia|].
  destruct (os.unread f) as [|b bs] eqn:E; simpl; [lia|].
  rewrite <-E. rewrite length_take. lia.
Qed.

Lemma readLoop_bound fs k rs table bs err rs' table' :
  io.readLoop fs rs k table = (Ret (bs, err), rs', table') ->
  (length bs <= k)%nat.
Proof.
  revert table. induction rs as [|[fd|] rs IH]; intros table; simpl.
  - intros [= <- _ _ _]. simpl. lia.
  - pose proof (os_Read_bound fs fd k table) as Hb.
    destruct (os.Read fs fd k table) as [[bs1 err1] table1]. simpl in Hb.
    destruct (decide (err1 = Some EOF)).
    + destruct (decide (0 < length bs1)%nat); [|by apply IH].
      by intros [= <- _ _ _].
    + by intros [= <- _ _ _].
  - done.
Qed.

Lemma readReader_bound fs k p rs table bs err p' table' :
  parts.readReader fs k p rs table = (Ret (bs, err), p', table') ->
  (length bs <= k)%nat.
Proof.
  unfold parts.readReader, io.Read.
  destruct (parts.Reader rs) as [mr|]; [|done].
  destruct (io.readLoop fs (io.readers mr) k table) as [[res rs1] table1] eqn:E.
  intros [= -> _ _]. by eapply readLoop_bound.
Qed.

(** X6. [Read] never hands out more bytes than the buffer holds,
    whatever state the session and the open files are in. *)
Theorem Read_chunk_bound fs k p table bs err p' table' :
  parts.Read fs k p table = (Ret (bs, err), p', table') ->
  (length bs <= k)%nat.
Proof.
  unfold parts.Read. destruct (parts.readState_ p) as [rs|].
  - apply readReader_bound.
  - destruct (parts.Readdirnames fs p 0) as [[names [e|]]|msg]; [| |done].
    + intros [= <- _ _ _]. simpl. lia.
    + destruct (parts.openFiles fs names [] table) as [[[e|] files] table1].
      * intros [= <- _ _ _]. simpl. lia.
      * apply readReader_bound.
Qed.

Lemma Read_chunk_bound_witness :
  (length (String.list_byte_of_string "10-both.") <= 8)%nat.
Proof.
  pose (r := parts.Read testdata.fs 8 confParts []).
  apply (Read_chunk_bound testdata.fs 8 confParts [] _ None r.1.2 r.2).
  vm_compute. reflexivity.
Defined.

Lemma readLoop_EOF_exhausted fs k rs table bs rs' table' :
  io.readLoop fs rs k table = (Ret (bs, Some EOF), rs', table') -> rs' = [].
Proof.
  revert table. induction rs as [|[fd|] rs IH]; intros table; simpl.
  - by intros [= _ <- _].
  - destruct (os.Read fs fd k table) as [[bs1 err1] table1].
    destruct (decide (err1 = Some EOF)) as [->|Hne].
    + destruct (decide (0 < length bs1)%nat); [|by apply IH].
      destruct (decide (0 < length rs)%nat) as [Hlt|Hge]; [done|].
      intros [= _ <- _]. destruct rs; [done|]. simpl in Hge. lia.
    + intros [= _ -> _ _]. done.
  - done.
Qed.

(** X7. The end of the stream is final: once a [Read] has answered
    [io.EOF] leaving a reader in place, every further [Read] answers
    zero bytes and [io.EOF] and changes nothing. *)
Theorem Read_EOF_is_final fs k p table bs p' table' rs mr :
  parts.Read fs k p table = (Ret (bs, Some EOF), p', table') ->
  parts.readState_ p' = Some rs -> parts.Reader rs = Some mr ->
  forall k', parts.Read fs k' p' table' = (Ret ([], Some EOF), p', table').
Proof.
  intros Hread Hstate Hreader k'.
  assert (Hshape : forall p0 rs0 table0,
    parts.readReader fs k p0 rs0 table0 = (Ret (bs, Some EOF), p', table') ->
    p' = parts.setReadState p0
           (Some {| parts.Files := parts.Files rs0;
                    parts.Reader := Some {| io.readers := [] |} |})).
  { intros p0 rs0 table0. unfold parts.readReader, io.Read.
    destruct (parts.Reader rs0) as [mr0|]; [|done].
    destruct (io.readLoop fs (io.readers mr0) k table0)
      as [[res rs1] table1] eqn:E.
    intros [= -> <- <-].
    by rewrite (readLoop_EOF_exhausted _ _ _ _ _ _ _ E). }
  assert (Hp' : exists p0 files,
    p' = parts.setReadState p0
           (Some {| parts.Files := files;
                    parts.Reader := Some {| io.readers := [] |} |})).
  { unfold parts.Read in Hread.
    destruct (parts.readState_ p) as [rs0|] eqn:Ep.
    - rewrite (Hshape _ _ _ Hread). eauto.
    - destruct (parts.Readdirnames fs p 0) as [[names [e|]]|msg]; [| |done].
      + injection Hread as _ _ <- _. congruence.
      + destruct (parts.openFiles fs names [] table) as [[[e|] files] table1].
        * injection Hread as _ _ <- _. simpl in Hstate.
          injection Hstate as <-. done.
        * rewrite (Hshape _ _ _ Hread). eauto. }
  destruct Hp' as (p0 & files & ->). reflexivity.
Qed.

Lemma Read_EOF_is_final_witness :
  let r := parts.Read testdata.fs 8
             (parts.NewParts ["testdata/usr/lib/adir"] None) [] in
  parts.Read testdata.fs 8 r.1.2 r.2 = (Ret ([], Some EOF), r.1.2, r.2).
Proof.
  intros r.
  apply (Read_EOF_is_final testdata.fs 8
           (parts.NewParts ["testdata/usr/lib/adir"] None) [] [] r.1.2 r.2
           {| parts.Files := [];
              parts.Reader := Some {| io.readers := [] |} |}
           {| io.readers := [] |}).
  - vm_compute. reflexivity.
  - vm_compute. reflexivity.
  - reflexivity.
Defined.

(** ** Reading and closing: the life of the handles *)

Lemma Read_keeps_config fs k p table :
  parts.Paths (parts.Read fs k p table).1.2 = parts.Paths p /\
  parts.Config_ (parts.Read fs k p table).1.2 = parts.Config_ p.
Proof.
  assert (Hrr : forall p0 rs0 table0,
    parts.Paths (parts.readReader fs k p0 rs0 table0).1.2 = parts.Paths p0 /\
    parts.Config_ (parts.readReader fs k p0 rs0 table0).1.2
    = parts.Config_ p0).
  { intros p0 rs0 table0. unfold parts.readReader.
    destruct (parts.Reader rs0) as [mr|]; [|done].
    by destruct (io.Read fs mr k table0) as [[res mr'] table1]. }
  unfold parts.Read. destruct (parts.readState_ p) as [rs|]; [apply Hrr|].
  destruct (parts.Readdirnames fs p 0) as [[names [e|]]|msg]; [done| |done].
  destruct (parts.openFiles fs names [] table) as [[[e|] files] table1];
    [done|].
  exact (Hrr (parts.setReadState p _) _ _).
Qed.

Lemma Close_keeps_config fs p table :
  parts.Paths (parts.Close fs p table).1.2 = parts.Paths p /\
  parts.Config_ (parts.Close fs p table).1.2 = parts.Config_ p.
Proof.
  unfold parts.Close. destruct (parts.readState_ p) as [rs|]; [|done].
  by destruct (parts.closeFiles fs (parts.Files rs) None table).
Qed.

(** A session without read state streams the resolved files from the
    first byte, whatever the table of open files holds. *)
Lemma readAll_from_start fs p table k fuel names :
  parts.readState_ p = None ->
  parts.Readdirnames fs p 0 = Ret (names, None) ->
  (forall name, name ∈ names ->
     os.OpenErr fs name = None /\ os.ReadErr fs name = None) ->
  (0 < k)%nat ->
  (length (concat (os.Contents fs <$> names)) < fuel)%nat ->
  readAll fuel fs k p table []
  = Some (Ret (concat (os.Contents fs <$> names), EOF)).
Proof.
  intros Hstate Hret Hfiles Hk Hfuel.
  set (files := Some <$> seq (length table) (length names)).
  set (table1 := table ++ (newFile fs <$> names)).
  assert (Hfirst :
    parts.Read fs k p table
    = parts.Read fs k
        (parts.setReadState p
           (Some {| parts.Files := files;
                    parts.Reader := Some {| io.readers := files |} |}))
        table1).
  { unfold parts.Read at 1. rewrite Hstate, Hret.
    rewrite openFiles_ok by (intros name Hin; by apply Hfiles). done. }
  destruct fuel as [|fuel]; [lia|].
  transitivity (readAll (S fuel) fs k
    (parts.setReadState p
       (Some {| parts.Files := files;
                parts.Reader := Some {| io.readers := files |} |}))
    table1 []).
  { simpl. by rewrite Hfirst. }
  apply (readAll_streams fs k p files (S fuel) table1 files _ []);
    [done| |done].
  apply streams_opened. intros name Hin. by apply Hfiles.
Qed.

(** X8. [Close] gives the stream back its beginning: after any [Read]
    and a [Close], reading to the end yields the whole concatenation
    again, from the first byte of the first file. *)
Theorem Close_restarts_stream fs p table k0 k fuel names :
  parts.readState_ p = None ->
  parts.Readdirnames fs p 0 = Ret (names, None) ->
  (forall name, name ∈ names ->
     os.OpenErr fs name = None /\ os.ReadErr fs name = None) ->
  (0 < k)%nat ->
  (length (concat (os.Contents fs <$> names)) < fuel)%nat ->
  let '(_, p1, table1) := parts.Read fs k0 p table in
  let '(_, p2, table2) := parts.Close fs p1 table1 in
  readAll fuel fs k p2 table2 []
  = Some (Ret (concat (os.Contents fs <$> names), EOF)).
Proof.
  intros Hstate Hret Hfiles Hk Hfuel.
  pose proof (Read_keeps_config fs k0 p table) as [HP1 HC1].
  destruct (parts.Read fs k0 p table) as [[res1 p1] table1]. simpl in *.
  pose proof (Close_keeps_config fs p1 table1) as [HP2 HC2].
  pose proof (Close_resets_readState fs p1 table1) as Hnone.
  destruct (parts.Close fs p1 table1) as [[err2 p2] table2]. simpl in *.
  apply readAll_from_start; [done| |done..].
  rewrite <-Hret. apply Readdirnames_ext; congruence.
Qed.

Lemma Close_restarts_stream_witness :
  let '(_, p1, table1) := parts.Read testdata.fs 5 confParts [] in
  let '(_, p2, table2) := parts.Close testdata.fs p1 table1 in
  readAll 200 testdata.fs 8 p2 table2 []
  = Some (Ret (concat (os.Contents testdata.fs <$> confNames), EOF)).
Proof.
  apply (Close_restarts_stream testdata.fs confParts [] 5 8 200 confNames).
  - reflexivity.
  - vm_compute. reflexivity.
  - intros name Hin. split; [|reflexivity].
    repeat (apply elem_of_cons in Hin as [->|Hin]; [vm_compute; reflexivity|]).
    by apply elem_of_nil in Hin.
  - lia.
  - vm_compute. lia.
Defined.

(** Where the open loop stops: it has opened a prefix of the names,
    in order, at the end of the table. *)
Lemma openFiles_shape fs names files table :
  exists j,
    (j <= length names)%nat /\
    (parts.openFiles fs names files table).1.2
    = files ++ (Some <$> seq (length table) j) /\
    (parts.openFiles fs names files table).2
    = table ++ (newFile fs <$> take j names).
Proof.
  revert files table. induction names as [|n names IH]; intros files table.
  - exists 0%nat. simpl. by rewrite !app_nil_r.
  - simpl. unfold os.Open. destruct (os.OpenErr fs n) as [e|].
    + exists 0%nat. simpl. rewrite !app_nil_r. split; [lia|done].
    + destruct (IH (files ++ [Some (length table)])
                  (table ++ [newFile fs n])) as (j & Hj & Hf & Ht).
      exists (S j). split; [simpl; lia|].
      unfold newFile in *. rewrite Hf, Ht.
      rewrite length_app, Nat.add_1_r, <-!app_assoc. done.
Qed.

Lemma openFiles_error_indep fs names files table files' table' :
  (parts.openFiles fs names files table).1.1
  = (parts.openFiles fs names files' table').1.1.
Proof.
  revert files table files' table'.
  induction names as [|n names IH]; intros files table files' table';
    [done|].
  simpl. unfold os.Open. destruct (os.OpenErr fs n) as [e|]; [done|].
  apply IH.
Qed.

Lemma closeFiles_length fs files err table :
  length (parts.closeFiles fs files err table).2 = length table.
Proof.
  revert err table. induction files as [|[fd|] files IH]; intros err table;
    simpl; [done| |done].
  pose proof (os_Close_length fs fd table) as Hlen.
  destruct (os.Close fs fd table) as [tmpErr table']. simpl in *.
  by rewrite IH.
Qed.

(** X9. The way out of a failed open is [Close]: it closes the handles
    the failed [Read] had opened and drops the half-built state, after
    which [Read] tries again from the start and, the file still
    refusing to open, returns the same error instead of panicking. *)
Theorem Close_recovers_failed_open fs p table k names name e :
  parts.readState_ p = None ->
  parts.Readdirnames fs p 0 = Ret (names, None) ->
  name ∈ names -> os.OpenErr fs name = Some e ->
  let '(res1, p1, table1) := parts.Read fs k p table in
  let '(_, p2, table2) := parts.Close fs p1 table1 in
  exists e1,
    res1 = Ret ([], Some e1) /\
    parts.readState_ p2 = None /\
    (forall i f, (length table <= i)%nat -> table2 !! i = Some f ->
       os.closed f = true) /\
    (parts.Read fs k p2 table2).1.1 = Ret ([], Some e1).
Proof.
  intros Hstate Hret Hin He.
  destruct (openFiles_error fs names [] table name e Hin He)
    as (e1 & files & table1 & Hopen).
  destruct (openFiles_shape fs names [] table) as (j & Hj & Hfiles & Htable).
  rewrite Hopen in Hfiles, Htable. simpl in Hfiles, Htable.
  unfold parts.Read at 1. rewrite Hstate, Hret, Hopen.
  set (p1 := parts.setReadState p _).
  pose proof (Close_keeps_config fs p1 table1) as [HP2 HC2].
  pose proof (Close_resets_readState fs p1 table1) as Hnone.
  pose proof (fun fd f' =>
    Close_releases_every_handle fs p1 _ table1 fd f' eq_refl) as Hclosed.
  assert (Hlen : length (parts.Close fs p1 table1).2 = length table1).
  { unfold parts.Close, p1. simpl.
    pose proof (closeFiles_length fs files None table1) as Hl.
    by destruct (parts.closeFiles fs files None table1). }
  destruct (parts.Close fs p1 table1) as [[err2 p2] table2]. simpl in *.
  exists e1. split; [done|]. split; [done|]. split.
  - intros i f Hi Hf. apply (Hclosed i f); [|done].
    rewrite Hfiles. apply list_elem_of_fmap. exists i. split; [done|].
    apply elem_of_seq. apply lookup_lt_Some in Hf.
    rewrite Hlen, Htable, length_app, length_fmap, length_take in Hf. lia.
  - unfold parts.Read. rewrite Hnone.
    rewrite (Readdirnames_ext fs p2 p 0) by done. rewrite Hret.
    pose proof (openFiles_error_indep fs names [] table2 [] table) as Hsame.
    rewrite Hopen in Hsame. simpl in Hsame.
    destruct (parts.openFiles fs names [] table2) as [[err3 files3] table3].
    simpl in Hsame. by rewrite Hsame.
Qed.

Lemma Close_recovers_failed_open_witness :
  let '(res1, p1, table1) := parts.Read deniedFs 8 confParts [] in
  let '(_, p2, table2) := parts.Close deniedFs p1 table1 in
  exists e1,
    res1 = Ret ([], Some e1) /\
    parts.readState_ p2 = None /\
    (forall i f, (length ([] : list os.File) <= i)%nat ->
       table2 !! i = Some f -> os.closed f = true) /\
    (parts.Read deniedFs 8 p2 table2).1.1 = Ret ([], Some e1).
Proof.
  apply (Close_recovers_failed_open deniedFs confParts [] 8 confNames
           "testdata/etc/10-only-etc.conf"
           (PathError "open" "testdata/etc/10-only-etc.conf"
              "permission denied")).
  - reflexivity.
  - vm_compute. reflexivity.
  - by right; left.
  - vm_compute. reflexivity.
Defined.

Lemma os_Read_preserves fs fd k table i f :
  length (os.Read fs fd k table).2 = length table /\
  (table !! i = Some f ->
   exists f', (os.Read fs fd k table).2 !! i = Some f' /\
     os.path f' = os.path f /\ os.closed f' = os.closed f).
Proof.
  unfold os.Read. destruct (table !! fd) as [f0|] eqn:E; simpl; [|by eauto].
  destruct (os.closed f0) eqn:Ec; simpl; [by eauto|].
  destruct (decide (k = 0%nat)); simpl; [by eauto|].
  destruct (os.unread f0) as [|b bs]; simpl; [by eauto|].
  rewrite length_insert. split; [done|]. intros Hi.
  destruct (decide (i = fd)) as [->|Hne].
  - rewrite list_lookup_insert_eq by (by eapply lookup_lt_Some).
    eexists. split; [done|]. simpl. split; congruence.
  - rewrite list_lookup_insert_ne by done. eauto.
Qed.

Lemma readLoop_preserves fs k rs table i f :
  length (io.readLoop fs rs k table).2 = length table /\
  (table !! i = Some f ->
   exists f', (io.readLoop fs rs k table).2 !! i = Some f' /\
     os.path f' = os.path f /\ os.closed f' = os.closed f).
Proof.
  revert table f. induction rs as [|[fd|] rs IH]; intros table f; simpl;
    [by eauto| |by eauto].
  pose proof (os_Read_preserves fs fd k table i f) as [Hlen Hone].
  destruct (os.Read fs fd k table) as [[bs1 err1] table1]. simpl in *.
  destruct (decide (err1 = Some EOF)); [|by eauto].
  destruct (decide (0 < length bs1)%nat); [by eauto|].
  split.
  - destruct (IH table1 f) as [-> _]. done.
  - intros Hi. destruct (Hone Hi) as (f1 & Hf1 & Hp1 & Hc1).
    destruct (IH table1 f1) as [_ Hrest].
    destruct (Hrest Hf1) as (f2 & Hf2 & Hp2 & Hc2).
    exists f2. split; [done|]. split; congruence.
Qed.

(** X10. The first [Read] opens every resolved file at once, not one
    after the other as the stream advances: when it returns, the
    table of open files has grown by one open handle per resolved
    file, in resolved order, however few bytes were asked for. *)
Theorem Read_opens_every_file fs p table k names :
  parts.readState_ p = None ->
  parts.Readdirnames fs p 0 = Ret (names, None) ->
  (forall name, name ∈ names -> os.OpenErr fs name = None) ->
  let table' := (parts.Read fs k p table).2 in
  length table' = (length table + length names)%nat /\
  forall i name, names !! i = Some name ->
    exists f, table' !! (length table + i)%nat = Some f /\
      os.path f = name /\ os.closed f = false.
Proof.
  intros Hstate Hret Hfiles. unfold parts.Read.
  rewrite Hstate, Hret, openFiles_ok by done.
  unfold parts.readReader, io.Read, io.MultiReader. simpl.
  set (files := Some <$> seq (length table) (length names)).
  set (table1 := table ++ (newFile fs <$> names)).
  assert (Hpres := fun i f => readLoop_preserves fs k files table1 i f).
  destruct (io.readLoop fs files k table1) as [[res rs'] table'] eqn:E.
  simpl in *. split.
  - destruct (Hpres 0%nat (newFile fs "")) as [-> _].
    unfold table1. by rewrite length_app, length_fmap.
  - intros i name Hname.
    destruct (Hpres (length table + i)%nat (newFile fs name)) as [_ Hone].
    destruct Hone as (f & Hf & Hp & Hc).
    { unfold table1. rewrite lookup_app_r by lia.
      replace (length table + i - length table)%nat with i by lia.
      by rewrite list_lookup_fmap, Hname. }
    by exists f.
Qed.

Lemma Read_opens_every_file_witness :
  let table' := (parts.Read testdata.fs 1 confParts []).2 in
  length table' = (length ([] : list os.File) + length confNames)%nat /\
  forall i name, confNames !! i = Some name ->
    exists f, table' !! (length ([] : list os.File) + i)%nat = Some f /\
      os.path f = name /\ os.closed f = false.
Proof.
  apply (Read_opens_every_file testdata.fs confParts [] 1 confNames).
  - reflexivity.
  - vm_compute. reflexivity.
  - intros name Hin.
    repeat (apply elem_of_cons in Hin as [->|Hin]; [vm_compute; reflexivity|]).
    by apply elem_of_nil in Hin.
Defined.

Lemma readAll_empty_buffer fs p files fuel :
  forall table rs cs acc,
    streams fs table rs cs -> rs <> [] ->
    readAll fuel fs 0
      (parts.setReadState p
         (Some {| parts.Files := files;
                  parts.Reader := Some {| io.readers := rs |} |}))
      table acc
    = None.
Proof.
  induction fuel as [|fuel IH]; intros table rs cs acc Hs Hne; [done|].
  simpl. rewrite Read_with_reader.
  destruct Hs as [Hnd Hall].
  destruct Hall as [|r c rs cs Hr Hall]; [done|].
  destruct Hr as (fd & f & -> & Hfd & Hc & Hopen & Herr).
  simpl. unfold os.Read. rewrite Hfd, Hopen. simpl.
  apply (IH table (Some fd :: rs) (c :: cs)); [|done].
  split; [done|]. constructor; [|done]. by exists fd, f.
Qed.

(** X11. With a buffer of length zero the stream never ends: as long
    as one file was resolved, every [Read] returns zero bytes and no
    error, and a caller that loops until an error loops for ever. *)
Theorem Read_empty_buffer_never_ends fs p table fuel names :
  parts.readState_ p = None ->
  parts.Readdirnames fs p 0 = Ret (names, None) ->
  (forall name, name ∈ names ->
     os.OpenErr fs name = None /\ os.ReadErr fs name = None) ->
  names <> [] ->
  readAll fuel fs 0 p table [] = None.
Proof.
  intros Hstate Hret Hfiles Hne.
  set (files := Some <$> seq (length table) (length names)).
  set (table1 := table ++ (newFile fs <$> names)).
  assert (Hfirst :
    parts.Read fs 0 p table
    = parts.Read fs 0
        (parts.setReadState p
           (Some {| parts.Files := files;
                    parts.Reader := Some {| io.readers := files |} |}))
        table1).
  { unfold parts.Read at 1. rewrite Hstate, Hret.
    rewrite openFiles_ok by (intros name Hin; by apply Hfiles). done. }
  destruct fuel as [|fuel]; [done|].
  transitivity (readAll (S fuel) fs 0
    (parts.setReadState p
       (Some {| parts.Files := files;
                parts.Reader := Some {| io.readers := files |} |}))
    table1 []).
  { simpl. by rewrite Hfirst. }
  apply (readAll_empty_buffer fs p files (S fuel) table1 files
           (os.Contents fs <$> names) []).
  - apply streams_opened. intros name Hin. by apply Hfiles.
  - unfold files. destruct names; [done|]. done.
Qed.

Lemma Read_empty_buffer_never_ends_witness :
  readAll 50 testdata.fs 0 confParts [] [] = None.
Proof.
  apply (Read_empty_buffer_never_ends testdata.fs confParts [] 50 confNames).
  - reflexivity.
  - vm_compute. reflexivity.
  - intros name Hin. split; [|reflexivity].
    repeat (apply elem_of_cons in Hin as [->|Hin]; [vm_compute; reflexivity|]).
    by apply elem_of_nil in Hin.
  - discriminate.
Defined.

Lemma os_Close_other fs fd table i :
  i <> fd -> (os.Close fs fd table).2 !! i = table !! i.
Proof.
  intros Hne. unfold os.Close. destruct (table !! fd) as [f|]; [|done].
  destruct (os.closed f); [done|]. simpl.
  by rewrite list_lookup_insert_ne.
Qed.

Lemma os_Close_keeps_bytes fs fd table i f :
  table !! i = Some f ->
  exists f', (os.Close fs fd table).2 !! i = Some f' /\
    os.path f' = os.path f /\ os.unread f' = os.unread f.
Proof.
  intros Hi. unfold os.Close. destruct (table !! fd) as [f0|] eqn:E;
    [|by eauto].
  destruct (os.closed f0); [by eauto|]. simpl.
  destruct (decide (i = fd)) as [->|Hne].
  - rewrite list_lookup_insert_eq by (by eapply lookup_lt_Some).
    eexists. split; [done|]. simpl. split; congruence.
  - rewrite list_lookup_insert_ne by done. eauto.
Qed.

Lemma closeFiles_other fs files err table i :
  Some i ∉ files ->
  (parts.closeFiles fs files err table).2 !! i = table !! i.
Proof.
  revert err table. induction files as [|[fd|] files IH]; intros err table;
    simpl; [done| |].
  - intros [Hne Hnotin]%not_elem_of_cons.
    pose proof (os_Close_other fs fd table i) as Hone.
    destruct (os.Close fs fd table) as [tmpErr table']. simpl in *.
    rewrite IH by done. apply Hone. congruence.
  - intros [_ Hnotin]%not_elem_of_cons. by apply IH.
Qed.

Lemma closeFiles_keeps_bytes fs files err table i f :
  table !! i = Some f ->
  exists f', (parts.closeFiles fs files err table).2 !! i = Some f' /\
    os.path f' = os.path f /\ os.unread f' = os.unread f.
Proof.
  revert err table f. induction files as [|[fd|] files IH];
    intros err table f Hi; simpl; [by eauto| |by apply IH].
  destruct (os_Close_keeps_bytes fs fd table i f Hi) as (f1 & Hf1 & Hp1 & Hu1).
  destruct (os.Close fs fd table) as [tmpErr table']. simpl in *.
  destruct (IH (if bool_decide (tmpErr <> None) && bool_decide (err <> None)
                then tmpErr else err) table' f1 Hf1) as (f2 & Hf2 & Hp2 & Hu2).
  exists f2. split; [done|]. split; congruence.
Qed.

(** X12. What [Close] does to the table of open files: it keeps its
    length, closes every handle the read state holds, leaves every
    other entry exactly as it was, and changes neither the path nor
    the unread bytes of any entry. *)
Theorem Close_touches_only_its_handles fs p rs table :
  parts.readState_ p = Some rs ->
  let table' := (parts.Close fs p table).2 in
  length table' = length table /\
  (forall fd f', Some fd ∈ parts.Files rs -> table' !! fd = Some f' ->
     os.closed f' = true) /\
  (forall i, Some i ∉ parts.Files rs -> table' !! i = table !! i) /\
  (forall i f, table !! i = Some f ->
     exists f', table' !! i = Some f' /\
       os.path f' = os.path f /\ os.unread f' = os.unread f).
Proof.
  intros Hstate. unfold parts.Close. rewrite Hstate.
  pose proof (closeFiles_length fs (parts.Files rs) None table) as Hlen.
  pose proof (fun i f' =>
    closeFiles_closed fs (parts.Files rs) None table i f') as Hclosed.
  pose proof (closeFiles_other fs (parts.Files rs) None table) as Hother.
  pose proof (closeFiles_keeps_bytes fs (parts.Files rs) None table) as Hkeep.
  destruct (parts.closeFiles fs (parts.Files rs) None table) as [err table'].
  simpl in *. split; [done|]. split; [|split; [done|done]].
  intros fd f' Hin Hf. apply (Hclosed fd f' Hf). by left.
Qed.

Lemma Close_touches_only_its_handles_witness :
  let r := parts.Read testdata.fs 8 confParts
             [newFile testdata.fs "testdata/usr/lib/40-noconf"] in
  let table' := (parts.Close testdata.fs r.1.2 r.2).2 in
  length table' = length r.2 /\
  (forall fd f',
     Some fd ∈ (Some <$> seq 1 8 : list (option nat)) ->
     table' !! fd = Some f' -> os.closed f' = true) /\
  (forall i, Some i ∉ (Some <$> seq 1 8 : list (option nat)) ->
     table' !! i = r.2 !! i) /\
  (forall i f, r.2 !! i = Some f ->
     exists f', table' !! i = Some f' /\
       os.path f' = os.path f /\ os.unread f' = os.unread f).
Proof.
  intros r.
  assert (Hstate : parts.readState_ r.1.2
                   = Some {| parts.Files := Some <$> seq 1 8;
                             parts.Reader :=
                               Some {| io.readers := Some <$> seq 1 8 |} |})
    by (vm_compute; reflexivity).
  exact (Close_touches_only_its_handles testdata.fs r.1.2 _ r.2 Hstate).
Defined.

(** ** File modes: predicates and rendering *)

Lemma Perm_bit_high (m : parts.FileMode) (j : Z) :
  9 <= j -> Z.land (parts.Perm m) (Z.shiftl 1 j) = 0.
Proof.
  intros Hj. unfold parts.Perm, parts.ModePerm.
  change 511 with (Z.ones 9). rewrite Z.land_ones by lia.
  rewrite Z.shiftl_1_l. apply Z.bits_inj'. intros n Hn.
  rewrite Z.land_spec, Z.bits_0, Z.pow2_bits_eqb by lia.
  destruct (Z.eqb_spec j n) as [<-|Hne]; [|by rewrite andb_false_r].
  by rewrite Z.mod_pow2_bits_high by lia.
Qed.

Lemma Perm_bit_low (m : parts.FileMode) (j : Z) :
  0 <= j < 9 ->
  Z.land (parts.Perm m) (Z.shiftl 1 j) = Z.land m (Z.shiftl 1 j).
Proof.
  intros Hj. unfold parts.Perm, parts.ModePerm.
  rewrite <-Z.land_assoc. f_equal.
  change 511 with (Z.ones 9). rewrite Z.shiftl_1_l.
  apply Z.bits_inj'. intros n Hn.
  rewrite Z.land_spec, Z.pow2_bits_eqb by lia.
  destruct (Z.eqb_spec j n) as [<-|Hne]; [|by rewrite andb_false_r].
  by rewrite Z.ones_spec_low by lia.
Qed.

(** X13. [Perm] keeps the nine permission bits and nothing else: it
    is idempotent, stays within [0777], and its result is never a
    directory and always counts as a regular file. *)
Theorem Perm_strips_type_bits (m : parts.FileMode) :
  parts.Perm (parts.Perm m) = parts.Perm m /\
  0 <= parts.Perm m <= 511 /\
  parts.IsDir (parts.Perm m) = false /\
  parts.IsRegular (parts.Perm m) = true.
Proof.
  assert (Hhigh : forall j, 9 <= j ->
            Z.land (parts.Perm m) (Z.shiftl 1 j) = 0)
    by apply Perm_bit_high.
  split; [|split; [|split]].
  - unfold parts.Perm. by rewrite <-Z.land_assoc, Z.land_diag.
  - unfold parts.Perm, parts.ModePerm.
    assert (Hmod : Z.land m 511 = m mod 512)
      by (change 511 with (Z.ones 9); by rewrite Z.land_ones by lia).
    rewrite Hmod. pose proof (Z.mod_pos_bound m 512 eq_refl). lia.
  - unfold parts.IsDir, parts.ModeDir, os.ModeDir. by rewrite Hhigh by lia.
  - unfold parts.IsRegular, parts.ModeType, parts.ModeRegular,
      parts.ModeDir, parts.ModeSymlink, parts.ModeNamedPipe,
      parts.ModeSocket, parts.ModeDevice, os.ModeDir, os.ModeSymlink,
      os.ModeNamedPipe, os.ModeSocket, os.ModeDevice.
    rewrite !Z.land_lor_distr_r, !Hhigh by lia. done.
Qed.

Lemma IsDir_lor_ModeRegular (m : parts.FileMode) :
  parts.IsDir (Z.lor m parts.ModeRegular) = parts.IsDir m.
Proof.
  unfold parts.IsDir. rewrite Z.land_lor_distr_l.
  change (Z.land parts.ModeRegular parts.ModeDir) with 0.
  by rewrite Z.lor_0_r.
Qed.

(** X14. How [StatMode] classifies. A failed [os.Stat] gives the zero
    mode and the error. Otherwise there is no error, the directory
    bit is the one [os] reported, a mode that differs from what [os]
    reported does so by the regular bit only, and a file [os] takes
    for regular carries the regular bit as its only type bit: it
    counts as regular and not as a directory. *)
Theorem StatMode_classification fs name :
  match os.Stat fs name with
  | inl e => parts.StatMode fs name = (0, Some e)
  | inr fi =>
      let m := os.Mode fi in
      let mode := (parts.StatMode fs name).1 in
      (parts.StatMode fs name).2 = None /\
      parts.IsDir mode = negb (Z.land m os.ModeDir =? 0) /\
      (mode = m \/ mode = Z.lor m parts.ModeRegular) /\
      (os.IsRegular m = true ->
         Z.land mode parts.ModeType = parts.ModeRegular /\
         parts.IsRegular mode = true /\ parts.IsDir mode = false)
  end.
Proof.
  unfold parts.StatMode. destruct (os.Stat fs name) as [e|fi]; [done|].
  simpl. split; [done|]. split; [|split].
  - destruct (os.IsRegular (os.Mode fi)); [|done].
    by rewrite IsDir_lor_ModeRegular.
  - destruct (os.IsRegular (os.Mode fi)); [by right|by left].
  - intros Hreg. rewrite Hreg.
    pose proof (StatMode_regular_type _ Hreg) as Htype.
    split; [done|]. split.
    + unfold parts.IsRegular. rewrite Z.land_lor_distr_l.
      change (Z.land parts.ModeRegular parts.ModeRegular)
        with parts.ModeRegular.
      destruct (Z.eqb_spec (Z.lor (Z.land (os.Mode fi) parts.ModeRegular)
                              parts.ModeRegular) 0) as [H0|]; [|done].
      apply Z.lor_eq_0_iff in H0 as [_ H0]. done.
    + rewrite IsDir_lor_ModeRegular. unfold parts.IsDir.
      apply negb_false_iff, Z.eqb_eq.
      unfold os.IsRegular in Hreg. apply Z.eqb_eq in Hreg.
      assert (Hsub : parts.ModeDir = Z.land os.ModeType parts.ModeDir)
        by reflexivity.
      rewrite Hsub, Z.land_assoc, Hreg. reflexivity.
Qed.

Lemma StatMode_classification_witness :
  Z.land (parts.StatMode testdata.fs "testdata/test.conf").1 parts.ModeType
  = parts.ModeRegular /\
  parts.IsRegular (parts.StatMode testdata.fs "testdata/test.conf").1 = true /\
  parts.IsDir (parts.StatMode testdata.fs "testdata/test.conf").1 = false.
Proof.
  pose proof (StatMode_classification testdata.fs "testdata/test.conf") as H.
  assert (Hs : os.Stat testdata.fs "testdata/test.conf"
               = inr {| os.Name := "test.conf"; os.Mode := 420 |})
    by (vm_compute; reflexivity).
  rewrite Hs in H. destruct H as (_ & _ & _ & H). apply H. reflexivity.
Defined.

(** X15. Under the executable configuration ([0111] and the regular
    bit as masks) the masks let through exactly the modes that are
    executable and carry the explicit regular bit. *)
Theorem executable_filter_is_IsExecutable p name mode :
  parts.ModePermFilter (parts.Config_ p) = parts.ExecutableModePermFilter ->
  parts.ModeTypeFilter (parts.Config_ p) = parts.ExecutableModeTypeFilter ->
  parts.filter p name mode None
  = parts.IsExecutable mode && negb (Z.land mode parts.ModeRegular =? 0).
Proof.
  intros Hperm Htype.
  unfold parts.filter, parts.IsExecutable, parts.IsRegular.
  rewrite Hperm, Htype.
  unfold parts.ExecutableModePermFilter, parts.ExecutableModeTypeFilter.
  destruct (Z.land mode 73 =? 0); simpl.
  - by rewrite andb_false_r.
  - destruct (Z.land mode parts.ModeRegular =? 0); simpl; [|done].
    by rewrite andb_false_r.
Qed.

Lemma executable_filter_is_IsExecutable_witness :
  parts.filter
    (parts.NewParts testdata.testDataPaths
       (Some {| parts.Reverse := false;
                parts.ModeTypeFilter := parts.ExecutableModeTypeFilter;
                parts.ModePermFilter := parts.ExecutableModePermFilter;
                parts.RegExpFilter := Some parts.DefaultRegExpFilter |}))
    "10-executable.sh" (Z.lor parts.ModeRegular 493) None
  = parts.IsExecutable (Z.lor parts.ModeRegular 493)
    && negb (Z.land (Z.lor parts.ModeRegular 493) parts.ModeRegular =? 0).
Proof.
  apply executable_filter_is_IsExecutable; reflexivity.
Defined.

Lemma string_of_list_ascii_app (a b : list ascii) :
  String.string_of_list_ascii (a ++ b)
  = String.string_of_list_ascii a +:+ String.string_of_list_ascii b.
Proof. induction a as [|c a IH]; simpl; [done|by rewrite IH]. Qed.

Lemma string_of_list_ascii_length (l : list ascii) :
  String.length (String.string_of_list_ascii l) = length l.
Proof. induction l as [|c l IH]; simpl; [done|by rewrite IH]. Qed.

Lemma typeLetters_length m i str :
  (length (parts.typeLetters m i str) <= length str)%nat.
Proof.
  revert i. induction str as [|c str IH]; intros i; simpl; [lia|].
  destruct (negb _); simpl; specialize (IH (i + 1)); lia.
Qed.

Lemma permLetters_length m i rwx :
  length (parts.permLetters m i rwx) = length rwx.
Proof.
  revert i. induction rwx as [|c rwx IH]; intros i; simpl; [done|].
  by rewrite IH.
Qed.

Lemma typeLetters_Perm m i str :
  0 <= i -> i + Z.of_nat (length str) <= 23 ->
  parts.typeLetters (parts.Perm m) i str = [].
Proof.
  revert i. induction str as [|c str IH]; intros i Hi Hlen; simpl; [done|].
  simpl in Hlen. rewrite Perm_bit_high by lia. simpl. apply IH; lia.
Qed.

Lemma permLetters_Perm m i rwx :
  0 <= i -> i + Z.of_nat (length rwx) <= 9 ->
  parts.permLetters (parts.Perm m) i rwx = parts.permLetters m i rwx.
Proof.
  revert i. induction rwx as [|c rwx IH]; intros i Hi Hlen; simpl; [done|].
  simpl in Hlen. rewrite Perm_bit_low by lia. f_equal. apply IH; lia.
Qed.

(** X16. The rendering of a mode is between 10 and 22 characters
    long and ends in nine permission characters; the rendering of its
    permission part is a dash followed by the same nine characters. *)
Theorem String_of_Perm (m : parts.FileMode) :
  (10 <= String.length (parts.String m) <= 22)%nat /\
  exists t r,
    parts.String m = t +:+ r /\ String.length r = 9%nat /\
    parts.String (parts.Perm m) = "-" +:+ r.
Proof.
  unfold parts.String.
  set (str := String.list_ascii_of_string "dalTLDpSugctf").
  set (rwx := String.list_ascii_of_string "rwxrwxrwx").
  pose proof (typeLetters_length m 0 str) as Htype.
  pose proof (permLetters_length m 0 rwx) as Hperm.
  change (length str) with 13%nat in Htype.
  change (length rwx) with 9%nat in Hperm.
  split.
  - rewrite string_of_list_ascii_length, length_app, Hperm.
    destruct (parts.typeLetters m 0 str); simpl in *; lia.
  - eexists _, (String.string_of_list_ascii (parts.permLetters m 0 rwx)).
    split; [apply string_of_list_ascii_app|].
    split; [by rewrite string_of_list_ascii_length|].
    rewrite typeLetters_Perm by (change (length str) with 13%nat; lia).
    rewrite permLetters_Perm by (change (length rwx) with 9%nat; lia).
    done.
Qed.

Lemma typeLetters_head m i str c :
  head (parts.typeLetters m i str) = Some c -> c ∈ str.
Proof.
  revert i. induction str as [|c' str IH]; intros i; simpl; [done|].
  destruct (negb _); simpl.
  - intros [= ->]. by left.
  - intros H. right. by eapply IH.
Qed.

Lemma string_get_0 (l : list ascii) :
  String.get 0 (String.string_of_list_ascii l) = head l.
Proof. by destruct l. Qed.

(** X17. The rendering starts with [d] exactly for a directory. *)
Theorem String_starts_with_d_iff_IsDir (m : parts.FileMode) :
  String.get 0 (parts.String m) = Some "d"%char <-> parts.IsDir m = true.
Proof.
  unfold parts.String, parts.IsDir. rewrite string_get_0.
  change (String.list_ascii_of_string "dalTLDpSugctf")
    with ("d"%char :: String.list_ascii_of_string "alTLDpSugctf").
  cbn [parts.typeLetters].
  change (Z.shiftl 1 (32 - 1 - 0)) with parts.ModeDir.
  destruct (negb (Z.land m parts.ModeDir =? 0)); [done|].
  split; [|done]. intros H. exfalso.
  destruct (parts.typeLetters m (0 + 1)
              (String.list_ascii_of_string "alTLDpSugctf"))
    as [|c l] eqn:E; [done|].
  simpl in H. injection H as ->.
  assert (Hin : "d"%char ∈ String.list_ascii_of_string "alTLDpSugctf").
  { apply (typeLetters_head m (0 + 1)). by rewrite E. }
  revert Hin. apply (bool_decide_unpack _). vm_compute. exact I.
Qed.

(** The renderings the tests of the package expect. *)
Example String_modeData :
  parts.String (Z.lor parts.ModeRegular 438) = "frw-rw-rw-" /\
  parts.String (Z.lor parts.ModeDir 509) = "drwxrwxr-x" /\
  parts.String (Z.lor parts.ModeRegular 509) = "frwxrwxr-x" /\
  parts.String (Z.lor parts.ModeType parts.ModePerm) = "dLDpSfrwxrwxrwx".
Proof. repeat split; vm_compute; reflexivity. Qed.

(** ** Sorting by base name *)

(** X18. [Less] is a strict order that looks at base names only: no
    path is less than itself, the relation is transitive, and two
    paths are unordered both ways exactly when their base names are
    equal. *)
Theorem Less_strict_order_on_base_names :
  (forall a, parts.Less a a = false) /\
  (forall a b c, parts.Less a b = true -> parts.Less b c = true ->
     parts.Less a c = true) /\
  (forall a b, parts.Less a b = false /\ parts.Less b a = false <->
     filepath.Base a = filepath.Base b).
Proof.
  split; [|split].
  - intros a. destruct (parts.Less a a) eqn:E; [|done].
    by rewrite (Less_asym _ _ E) in E.
  - apply Less_trans.
  - intros a b. split; [intros [H1 H2]; by apply Less_trichotomy|].
    intros Heq. unfold parts.Less, strings.Compare.
    rewrite Heq, string_compare_refl. done.
Qed.

(** X19. [Swap] with both indices inside the slice exchanges the two
    elements, leaves the others and the length as they are, and undoes
    itself when repeated; with an index outside it panics. *)
Theorem Swap_exchanges (paths : list string) (i j : Z) :
  if bool_decide (0 <= i < parts.Len paths /\ 0 <= j < parts.Len paths)
  then
    exists l',
      parts.Swap paths i j = Ret l' /\
      parts.Len l' = parts.Len paths /\
      l' !! Z.to_nat i = paths !! Z.to_nat j /\
      l' !! Z.to_nat j = paths !! Z.to_nat i /\
      (forall k, k <> Z.to_nat i -> k <> Z.to_nat j -> l' !! k = paths !! k) /\
      parts.Swap l' i j = Ret paths
  else parts.Swap paths i j = Panic "index out of range".
Proof.
  unfold parts.Swap, parts.Len. case_bool_decide as Hrange.
  - destruct Hrange as [Hi Hj].
    rewrite (proj2 (Z.ltb_ge i 0)), (proj2 (Z.leb_gt _ i)),
      (proj2 (Z.ltb_ge j 0)), (proj2 (Z.leb_gt _ j)) by lia. simpl.
    assert (Hi' : (Z.to_nat i < length paths)%nat) by lia.
    assert (Hj' : (Z.to_nat j < length paths)%nat) by lia.
    destruct (lookup_lt_is_Some_2 _ _ Hi') as [pi Hpi].
    destruct (lookup_lt_is_Some_2 _ _ Hj') as [pj Hpj].
    rewrite Hpi, Hpj.
    set (l' := <[Z.to_nat j := pi]> (<[Z.to_nat i := pj]> paths)).
    assert (Hlen : length l' = length paths)
      by (unfold l'; by rewrite !length_insert).
    assert (Hli : l' !! Z.to_nat i = Some pj).
    { unfold l'. destruct (decide (Z.to_nat j = Z.to_nat i)) as [Heq|Hne].
      - rewrite Heq, list_lookup_insert_eq by (by rewrite length_insert).
        congruence.
      - rewrite list_lookup_insert_ne by done.
        by rewrite list_lookup_insert_eq. }
    assert (Hlj : l' !! Z.to_nat j = Some pi).
    { unfold l'. by rewrite list_lookup_insert_eq by (by rewrite length_insert). }
    exists l'. split; [done|]. split; [by rewrite Hlen|].
    split; [congruence|]. split; [congruence|]. split.
    + intros k Hki Hkj. unfold l'. by rewrite !list_lookup_insert_ne.
    + rewrite Hlen.
      rewrite (proj2 (Z.leb_gt _ i)), (proj2 (Z.leb_gt _ j)) by lia. simpl.
      rewrite Hli, Hlj. f_equal. apply list_eq. intros k.
      destruct (decide (k = Z.to_nat j)) as [->|Hkj].
      * rewrite list_lookup_insert_eq by (by rewrite length_insert, Hlen).
        done.
      * rewrite list_lookup_insert_ne by done.
        destruct (decide (k = Z.to_nat i)) as [->|Hki].
        -- by rewrite list_lookup_insert_eq by (by rewrite Hlen).
        -- rewrite list_lookup_insert_ne by done. unfold l'.
           by rewrite !list_lookup_insert_ne.
  - destruct (i <? 0) eqn:E1; [done|].
    destruct (Z.of_nat (length paths) <=? i) eqn:E2; [done|].
    destruct (j <? 0) eqn:E3; [done|].
    destruct (Z.of_nat (length paths) <=? j) eqn:E4; [done|].
    exfalso. apply Hrange. lia.
Qed.

(** ** Configurations *)

(** X20. [StatMode] and [LstatMode] hand on the permission bits that
    [os] reports, unchanged, for every kind of file. *)
Theorem Stat_modes_keep_permissions fs name fi fi' :
  os.Stat fs name = inr fi -> os.Lstat fs name = inr fi' ->
  parts.Perm (parts.StatMode fs name).1 = Z.land (os.Mode fi) 511 /\
  parts.Perm (parts.LstatMode fs name).1 = Z.land (os.Mode fi') 511.
Proof.
  intros Hs Hl. split.
  - by destruct (StatMode_Perm fs name fi Hs) as [_ ->].
  - by rewrite (LstatMode_Perm fs name fi' Hl).
Qed.

Lemma Stat_modes_keep_permissions_witness :
  parts.Perm (parts.StatMode testdata.fs "testdata/etc/30-symlink.conf").1
  = Z.land 420 511 /\
  parts.Perm (parts.LstatMode testdata.fs "testdata/etc/30-symlink.conf").1
  = Z.land (Z.lor os.ModeSymlink 511) 511.
Proof.
  apply (Stat_modes_keep_permissions testdata.fs
           "testdata/etc/30-symlink.conf"
           {| os.Name := "30-symlink.conf"; os.Mode := 420 |}
           {| os.Name := "30-symlink.conf";
              os.Mode := Z.lor os.ModeSymlink 511 |});
    vm_compute; reflexivity.
Defined.

Lemma candidates_same_verdicts fs p p' path :
  parts.ModePermFilter (parts.Config_ p)
  = parts.ModePermFilter (parts.Config_ p') ->
  parts.ModeTypeFilter (parts.Config_ p)
  = parts.ModeTypeFilter (parts.Config_ p') ->
  (forall name mode,
     parts.filter p name mode (parts.RegExpFilter (parts.Config_ p))
     = parts.filter p' name mode (parts.RegExpFilter (parts.Config_ p'))) ->
  candidates fs p path = candidates fs p' path.
Proof.
  intros Hperm Htype Hre. unfold candidates, dirCandidate.
  assert (Hnone : forall name mode,
    parts.filter p name mode None = parts.filter p' name mode None).
  { intros name mode. unfold parts.filter. by rewrite Hperm, Htype. }
  rewrite Hnone. destruct (parts.IsDir _); [|done].
  destruct (os.DirNames fs path) as [e|fileNames]; [done|].
  apply list_fmap_ext. intros i f _. by rewrite Hre.
Qed.

(** X21. A configuration built by [NewConfig] from the default masks
    and a pattern that compiles to one matching every name resolves
    exactly like the default configuration that [NewParts] falls back
    on when given none. *)
Theorem NewConfig_defaults_resolve_like_nil compile re fs paths n :
  compile ".*" = inr re ->
  (forall name, regexp.MatchString re name = true) ->
  exists config,
    parts.NewConfig compile false parts.DefaultModeTypeFilter
      parts.DefaultModePermFilter ".*" = (Some config, None) /\
    parts.Readdirnames fs (parts.NewParts paths (Some config)) n
    = parts.Readdirnames fs (parts.NewParts paths None) n.
Proof.
  intros Hcompile Hall. unfold parts.NewConfig. rewrite Hcompile.
  eexists. split; [done|].
  set (p := parts.NewParts paths (Some _)).
  set (p' := parts.NewParts paths None).
  unfold parts.Readdirnames. rewrite !scanPaths_result.
  change (parts.Paths p) with paths. change (parts.Paths p') with paths.
  destruct (scanPathsErr fs paths); [done|].
  assert (Hsame : forall l : list string,
            l ≫= candidates fs p = l ≫= candidates fs p').
  { intros l. induction l as [|path l IH]; [done|].
    change (candidates fs p path ++ (l ≫= candidates fs p)
            = candidates fs p' path ++ (l ≫= candidates fs p')).
    rewrite IH. f_equal. apply candidates_same_verdicts; [done..|].
    intros name mode. unfold parts.filter. simpl. by rewrite Hall. }
  by rewrite Hsame.
Qed.

Lemma NewConfig_defaults_resolve_like_nil_witness :
  exists config,
    parts.NewConfig (fun _ => inr parts.DefaultRegExpFilter) false
      parts.DefaultModeTypeFilter parts.DefaultModePermFilter ".*"
    = (Some config, None) /\
    parts.Readdirnames testdata.fs
      (parts.NewParts testdata.testDataPaths (Some config)) 0
    = parts.Readdirnames testdata.fs
        (parts.NewParts testdata.testDataPaths None) 0.
Proof.
  apply (NewConfig_defaults_resolve_like_nil
           (fun _ => inr parts.DefaultRegExpFilter)
           parts.DefaultRegExpFilter testdata.fs testdata.testDataPaths 0).
  - reflexivity.
  - reflexivity.
Defined.
